(** * deepinv: the haze forward operator and the MRI acceleration mask generator

    A shallow embedding of
      - [deepinv/diffops/physics/haze.py]    (class [Haze]) and
      - [deepinv/physics/generator/mri.py]   (class [AccelerationMaskGenerator]),
    followed by the properties of the two classes.

    Conventions of the embedding.
      - Python exceptions are values of [exn]; code that can raise returns a
        [result].
      - [Haze] is embedded twice: in module [Haze] the entries of the
        tensors are real numbers ([R]), which gives the exact value of the
        expressions the code evaluates; in module [Haze32] they are IEEE
        binary32 values, with the rounding, the infinities and the NaN of
        torch's default dtype.
      - Python [float] arithmetic on scalars ([int(0.08 * W)] and the like) is
        IEEE binary64, computed with the Standard Library's [SpecFloat].
      - Library functions ([torch.exp], [torch.linspace], [torch.zeros],
        [torch.cat], indexed assignment, [np.random.choice]) follow their
        documentation. Where the documentation leaves the last bit open,
        the function is a parameter of the model: the approximation of the
        exponential in [Haze32], the values of [torch.linspace] in
        [step_with]. *)

From Stdlib Require Import String ZArith List Bool Lia Reals Lra.
From Stdlib Require Import Floats.SpecFloat.
Import ListNotations.

(* ================================================================== *)
(** * Python runtime: exceptions and results *)
(* ================================================================== *)

Module Py.

(** The exceptions the two classes can raise, directly or through a
    library call. *)
Inductive exn : Type :=
| ValueError (msg : string)
| UnboundLocalError (name : string)
| IndexError
| RuntimeError
| OverflowError.

Inductive result (A : Type) : Type :=
| Ok (a : A)
| Raise (e : exn).

Arguments Ok {A} a.
Arguments Raise {A} e.

Definition bind {A B : Type} (m : result A) (k : A -> result B) : result B :=
  match m with
  | Ok a => k a
  | Raise e => Raise e
  end.

End Py.

Import Py.

Declare Scope py_scope.
Delimit Scope py_scope with py.
Notation "x <- m ;; k" := (bind m (fun x => k))
  (at level 61, m at next level, right associativity) : py_scope.

(* ================================================================== *)
(** * Shapes and broadcasting *)
(* ================================================================== *)

Module Shape.

(** Two dimensions are compatible when they are equal or one of them is 1. *)
Definition broadcast_dim (a b : nat) : option nat :=
  if Nat.eqb a b then Some a
  else if Nat.eqb a 1 then Some b
  else if Nat.eqb b 1 then Some a
  else None.

(** Broadcasting of two shapes written from the trailing dimension. *)
Fixpoint broadcast_aligned (s1 s2 : list nat) : option (list nat) :=
  match s1, s2 with
  | [], s => Some s
  | s, [] => Some s
  | a :: s1', b :: s2' =>
      match broadcast_dim a b, broadcast_aligned s1' s2' with
      | Some c, Some s => Some (c :: s)
      | _, _ => None
      end
  end.

(** [torch.broadcast_shapes]: shapes are aligned on the right. *)
Definition broadcast_shapes (s1 s2 : list nat) : option (list nat) :=
  option_map (@rev nat) (broadcast_aligned (rev s1) (rev s2)).

(** The index read in an operand of shape [s] for an index of the
    broadcast result; both written from the trailing dimension. *)
Fixpoint index_aligned (s idx : list nat) : list nat :=
  match s, idx with
  | d :: s', i :: idx' =>
      (if Nat.eqb d 1 then 0%nat else i) :: index_aligned s' idx'
  | _, _ => []
  end.

Definition broadcast_index (s idx : list nat) : list nat :=
  rev (index_aligned (rev s) (rev idx)).

(** [s] can be broadcast to [target] without changing [target]. *)
Definition broadcastable (s target : list nat) : Prop :=
  broadcast_shapes s target = Some target.

(** [idx] addresses an entry of a tensor of shape [s]. *)
Definition valid_index (s idx : list nat) : Prop :=
  Forall2 lt idx s.

(** [fits d s]: in trailing-dimension order, every dimension of [d] is
    that of [s] or 1, and [d] has no more dimensions than [s]. *)
Fixpoint fits (d s : list nat) : Prop :=
  match d, s with
  | [], _ => True
  | a :: d', b :: s' => (a = b \/ a = 1%nat) /\ fits d' s'
  | _ :: _, [] => False
  end.

End Shape.

Import Shape.

(* ================================================================== *)
(** * haze.py *)
(* ================================================================== *)

Module Haze.

Local Open Scope R_scope.
Local Open Scope py_scope.

(** A dense tensor: its shape and its entries. *)
Record tensor : Type := mkTensor {
  shape : list nat;
  entry : list nat -> R
}.

(** The third component of a state is a Python float or a tensor. *)
Inductive operand : Type :=
| Scalar (r : R)
| Tensor (a : tensor).

(** [x[0]], [x[1]], [x[2]] *)
Definition state : Type := (tensor * tensor * operand)%type.

(** Same shape and same entries. *)
Definition tensor_eq (a b : tensor) : Prop :=
  shape a = shape b /\
  forall idx, valid_index (shape b) idx -> entry a idx = entry b idx.

(** ** Elementwise operations of torch *)

(** [c * a] and [c - a] for a Python number [c] *)
Definition scalar_mul (c : R) (a : tensor) : tensor :=
  mkTensor (shape a) (fun idx => c * entry a idx).

Definition scalar_sub (c : R) (a : tensor) : tensor :=
  mkTensor (shape a) (fun idx => c - entry a idx).

(** [torch.exp] *)
Definition torch_exp (a : tensor) : tensor :=
  mkTensor (shape a) (fun idx => exp (entry a idx)).

(** A binary elementwise operation with broadcasting. *)
Definition elementwise (f : R -> R -> R) (a b : tensor) : result tensor :=
  match broadcast_shapes (shape a) (shape b) with
  | Some s =>
      Ok (mkTensor s (fun idx =>
            f (entry a (broadcast_index (shape a) idx))
              (entry b (broadcast_index (shape b) idx))))
  | None => Raise RuntimeError
  end.

Definition tensor_mul := elementwise Rmult.
Definition tensor_add := elementwise Rplus.

(** [a * v] where [v] is a Python float or a tensor *)
Definition mul_operand (a : tensor) (v : operand) : result tensor :=
  match v with
  | Scalar r => Ok (mkTensor (shape a) (fun idx => entry a idx * r))
  | Tensor b => tensor_mul a b
  end.

(** [torch.ones(shape)] *)
Definition torch_ones (s : list nat) : tensor :=
  mkTensor s (fun _ => 1).

(** ** class Haze *)

Record Haze : Type := { beta : R }.

(** [__init__(self, beta=0.1)] *)
Definition init (b : option R) : Haze :=
  {| beta := match b with Some v => v | None => 1 / 10 end |}.

(** [A(self, x)] *)
Definition A (self : Haze) (x : state) : result tensor :=
  let '(im, d, A) := x in
  let t := torch_exp (scalar_mul (- beta self) d) in
  a <- tensor_mul t im ;;
  b <- mul_operand (scalar_sub 1 t) A ;;
  tensor_add a b.

(** [A_adjoint(self, y)] *)
Definition A_adjoint (self : Haze) (y : tensor) : result state :=
  match shape y with
  | [b; c; h; w] =>
      let d := torch_ones [b; 1%nat; h; w] in
      let A := Scalar 1 in
      Ok (y, d, A)
  | _ :: _ :: _ :: _ :: _ :: _ =>
      Raise (ValueError "too many values to unpack (expected 4)")
  | _ => Raise (ValueError "not enough values to unpack (expected 4)")
  end.

(** The entry of the third component used at [idx] of a result of shape
    [s]. *)
Definition operand_entry (v : operand) (idx : list nat) : R :=
  match v with
  | Scalar r => r
  | Tensor a => entry a (broadcast_index (shape a) idx)
  end.

(** The transmittance [t] read at [idx] of the observation. *)
Definition transmittance (self : Haze) (d : tensor) (idx : list nat) : R :=
  exp (- beta self * entry d (broadcast_index (shape d) idx)).

(** A latent state as the data model has it: [depth] and
    [atmospheric_light] broadcast to the shape of [image]. *)
Definition latent_state (x : state) : Prop :=
  let '(im, d, A) := x in
  broadcastable (shape d) (shape im) /\
  match A with
  | Scalar _ => True
  | Tensor a => broadcastable (shape a) (shape im)
  end.

End Haze.

(* ================================================================== *)
(** * Python floats (IEEE binary64) *)
(* ================================================================== *)

Module Float64.

Local Open Scope Z_scope.

Definition prec : Z := 53.
Definition emax : Z := 1024.

Definition float : Type := spec_float.

(** The double nearest to the integer [n] (ties to even). *)
Definition round_int (n : Z) : float := binary_normalize prec emax n 0 false.

(** [float(n)] for a Python int [n], as done implicitly by [x * n] *)
Definition of_int (n : Z) : result float :=
  match round_int n with
  | S754_infinity _ => Raise OverflowError
  | f => Ok f
  end.

(** The decimal literal [num / den], rounded to the nearest double. *)
Definition literal (num den : Z) : float :=
  SFdiv prec emax (round_int num) (round_int den).

Definition mul (x y : float) : float := SFmul prec emax x y.
Definition sub (x y : float) : float := SFsub prec emax x y.
Definition add (x y : float) : float := SFadd prec emax x y.
Definition div (x y : float) : float := SFdiv prec emax x y.

(** [int(x)]: truncation toward zero *)
Definition to_int (x : float) : result Z :=
  match x with
  | S754_zero _ => Ok 0
  | S754_finite s m e =>
      let a := match e with
               | Zneg p => Z.shiftr (Zpos m) (Zpos p)
               | _ => Z.shiftl (Zpos m) e
               end in
      Ok (if s then - a else a)
  | S754_infinity _ => Raise OverflowError
  | S754_nan => Raise (ValueError "cannot convert float NaN to integer")
  end.

(** [int(x * n)] for a float [x] and a Python int [n] *)
Definition int_of_scaled (x : float) (n : Z) : result Z :=
  bind (of_int n) (fun nf => to_int (mul x nf)).

(** The sign bit of [x] is clear (NaN has none). *)
Definition nonneg (x : float) : Prop :=
  match x with
  | S754_zero s | S754_infinity s | S754_finite s _ _ => s = false
  | S754_nan => True
  end.

End Float64.

(* ================================================================== *)
(** * Tensor entries (IEEE binary32) *)
(* ================================================================== *)

Module Float32.

Local Open Scope Z_scope.

Definition prec : Z := 24.
Definition emax : Z := 128.

Definition float : Type := spec_float.

(** [x] is a value of the format. *)
Definition valid (x : float) : bool := valid_binary prec emax x.

Definition is_nan (x : float) : bool :=
  match x with S754_nan => true | _ => false end.

(** [torch.isfinite] *)
Definition is_finite (x : float) : bool :=
  match x with S754_zero _ | S754_finite _ _ _ => true | _ => false end.

(** The float32 nearest to a Python float (ties to even): the value a
    Python number takes in an operation with a float32 tensor. *)
Definition of_double (x : Float64.float) : float :=
  match x with
  | S754_finite s m e => binary_round prec emax s m e
  | _ => x
  end.

Definition one : float := S754_finite false 8388608 (-23).

Definition mul (x y : float) : float := SFmul prec emax x y.
Definition add (x y : float) : float := SFadd prec emax x y.
Definition sub (x y : float) : float := SFsub prec emax x y.

(** [==], [<] and [<=] on entries *)
Definition eqb (x y : float) : bool := SFeqb x y.
Definition ltb (x y : float) : bool := SFltb x y.
Definition leb (x y : float) : bool := SFleb x y.

(** [exp]: the special values are those of IEEE 754; at a finite nonzero
    argument the library gives an approximation of the exponential,
    [approx]. *)
Definition exp (approx : float -> float) (x : float) : float :=
  match x with
  | S754_nan => S754_nan
  | S754_zero _ => one
  | S754_infinity false => S754_infinity false
  | S754_infinity true => S754_zero false
  | S754_finite _ _ _ => approx x
  end.

(** ** The numbers behind the values *)

(** [2^e] as a real number. *)
Definition bpow (e : Z) : R := powerRZ 2 e.

(** The real number a finite value stands for; 0 for the others. *)
Definition B2R (x : float) : R :=
  match x with
  | S754_finite s m e => (IZR (cond_Zopp s (Zpos m)) * bpow e)%R
  | _ => 0%R
  end.

(** A zero, or a finite value whose exponent is not below the smallest
    exponent of the format, -149. *)
Definition finite32 (x : float) : Prop :=
  match x with
  | S754_zero _ => True
  | S754_finite _ _ e => -149 <= e
  | _ => False
  end.

(** The relative error of one rounding is at most [eps = 2^-24]; where the
    result is subnormal the error is at most [eta = 2^-150], half the
    smallest positive value. *)
Definition eps : R := bpow (-24).
Definition eta : R := bpow (-150).

(** Finite values that are not below, respectively not above, zero. *)
Definition nonneg_finite (x : float) : bool :=
  match x with
  | S754_zero _ => true
  | S754_finite s _ _ => negb s
  | _ => false
  end.

Definition nonpos_finite (x : float) : bool :=
  match x with
  | S754_zero _ => true
  | S754_finite s _ _ => s
  | _ => false
  end.

(** What is asked of the approximation of the exponential: at a negative
    argument it returns a value between 0 and 1. *)
Definition exp_bounded (approx : float -> float) : Prop :=
  forall m e,
    finite32 (approx (S754_finite true m e)) /\
    (0 <= B2R (approx (S754_finite true m e)) <= 1)%R.

(** An approximation known at one argument: [v] at [x], 0 elsewhere. *)
Definition exp_at (x v : float) : float -> float :=
  fun z => if eqb z x then v else S754_zero false.

(** After [k] shifts to the right of the mantissa [m0], the record holds
    the quotient, and its two flags place the remainder with respect to
    half a unit. *)
Definition shifted (m0 k : Z) (mrs : shr_record) : Prop :=
  0 <= shr_m mrs /\
  exists low,
    0 <= low < 2 ^ k /\
    (shr_s mrs = false <-> low = 0) /\
    2 * m0 = shr_m mrs * 2 ^ (k + 1) + (if shr_r mrs then 2 ^ k else 0) + low.

End Float32.

(* ================================================================== *)
(** * haze.py on float32 tensors *)
(* ================================================================== *)

Module Haze32.

Local Open Scope py_scope.

(** A dense float32 tensor: its shape and its entries. *)
Record tensor : Type := mkTensor {
  shape : list nat;
  entry : list nat -> Float32.float
}.

(** The third component of a state is a Python float or a tensor. *)
Inductive operand : Type :=
| Scalar (r : Float64.float)
| Tensor (a : tensor).

(** [x[0]], [x[1]], [x[2]] *)
Definition state : Type := (tensor * tensor * operand)%type.

(** ** Elementwise operations of torch *)

(** [c * a] and [c - a] for a Python number [c] *)
Definition scalar_mul (c : Float64.float) (a : tensor) : tensor :=
  mkTensor (shape a) (fun idx => Float32.mul (entry a idx) (Float32.of_double c)).

Definition scalar_sub (c : Float64.float) (a : tensor) : tensor :=
  mkTensor (shape a) (fun idx => Float32.sub (Float32.of_double c) (entry a idx)).

(** [torch.exp] *)
Definition torch_exp (approx : Float32.float -> Float32.float) (a : tensor)
    : tensor :=
  mkTensor (shape a) (fun idx => Float32.exp approx (entry a idx)).

(** A binary elementwise operation with broadcasting. *)
Definition elementwise (f : Float32.float -> Float32.float -> Float32.float)
    (a b : tensor) : result tensor :=
  match broadcast_shapes (shape a) (shape b) with
  | Some s =>
      Ok (mkTensor s (fun idx =>
            f (entry a (broadcast_index (shape a) idx))
              (entry b (broadcast_index (shape b) idx))))
  | None => Raise RuntimeError
  end.

Definition tensor_mul := elementwise Float32.mul.
Definition tensor_add := elementwise Float32.add.

(** [a * v] where [v] is a Python float or a tensor *)
Definition mul_operand (a : tensor) (v : operand) : result tensor :=
  match v with
  | Scalar r =>
      Ok (mkTensor (shape a)
            (fun idx => Float32.mul (entry a idx) (Float32.of_double r)))
  | Tensor b => tensor_mul a b
  end.

(** ** class Haze *)

Record Haze : Type := { beta : Float64.float }.

(** [__init__(self, beta=0.1)] *)
Definition init (b : option Float64.float) : Haze :=
  {| beta := match b with Some v => v | None => Float64.literal 1 10 end |}.

(** [A(self, x)] *)
Definition A (approx : Float32.float -> Float32.float) (self : Haze)
    (x : state) : result tensor :=
  let '(im, d, A) := x in
  let t := torch_exp approx (scalar_mul (SFopp (beta self)) d) in
  a <- tensor_mul t im ;;
  b <- mul_operand (scalar_sub (Float64.round_int 1) t) A ;;
  tensor_add a b.

(** The float32 entry of the third component used at [idx] of a result. *)
Definition operand_entry (v : operand) (idx : list nat) : Float32.float :=
  match v with
  | Scalar r => Float32.of_double r
  | Tensor a => entry a (broadcast_index (shape a) idx)
  end.

(** The transmittance [t] read at [idx] of the observation. *)
Definition transmittance (approx : Float32.float -> Float32.float)
    (self : Haze) (d : tensor) (idx : list nat) : Float32.float :=
  Float32.exp approx
    (Float32.mul (entry d (broadcast_index (shape d) idx))
                 (Float32.of_double (SFopp (beta self)))).

(** A latent state as the data model has it: [depth] and
    [atmospheric_light] broadcast to the shape of [image]. *)
Definition latent_state (x : state) : Prop :=
  let '(im, d, A) := x in
  broadcastable (shape d) (shape im) /\
  match A with
  | Scalar _ => True
  | Tensor a => broadcastable (shape a) (shape im)
  end.

(** Every entry of [a] is a float32 value. *)
Definition well_formed (a : tensor) : Prop :=
  forall idx, Float32.valid (entry a idx) = true.

(** [y] lies between [u] and [v], both included. *)
Definition between (u v y : Float32.float) : bool :=
  (Float32.leb u y && Float32.leb y v) || (Float32.leb v y && Float32.leb y u).

(** The entries of [a] and of a third component are finite. *)
Definition finite_tensor (a : tensor) : Prop :=
  forall idx, Float32.is_finite (entry a idx) = true.

Definition finite_operand (v : operand) : Prop :=
  match v with
  | Scalar r => Float32.is_finite (Float32.of_double r) = true
  | Tensor a => finite_tensor a
  end.

(** The float32 entries of a third component are float32 values. *)
Definition well_formed_operand (v : operand) : Prop :=
  match v with
  | Scalar r => Float32.valid (Float32.of_double r) = true
  | Tensor a => well_formed a
  end.

End Haze32.

(* ================================================================== *)
(** * The tensor operations used by the mask generator *)
(* ================================================================== *)

Module Torch.

Local Open Scope Z_scope.
Local Open Scope py_scope.

(** Masks before and after the channel axis is added; entries are the
    numbers 0 and 1 of the source. *)
Definition tensor3 : Type := list (list (list Z)).
Definition tensor4 : Type := list (list (list (list Z))).

(** [t] has shape (b, c, h, w). *)
Definition has_shape4 (t : tensor4) (b c h w : Z) : Prop :=
  Z.of_nat (length t) = b /\
  Forall (fun chans => Z.of_nat (length chans) = c /\
    Forall (fun m => Z.of_nat (length m) = h /\
      Forall (fun row => Z.of_nat (length row) = w) m) chans) t.

(** [0, 1, ..., n-1] *)
Definition range (n : nat) : list Z := map Z.of_nat (seq 0 n).

Fixpoint mapM {A B : Type} (f : A -> result B) (l : list A) : result (list B) :=
  match l with
  | [] => Ok []
  | a :: l' => b <- f a ;; bs <- mapM f l' ;; Ok (b :: bs)
  end.

(** [torch.zeros((b, h, w), **self.factory_kwargs)]; the keyword arguments
    (device and dtype, kept by the base class) do not change the entries. *)
Definition torch_zeros (b h w : Z) : result tensor3 :=
  if (b <? 0) || (h <? 0) || (w <? 0) then Raise RuntimeError
  else Ok (repeat (repeat (repeat 0 (Z.to_nat w)) (Z.to_nat h)) (Z.to_nat b)).

(** The value [start + i * (end - start) / n], truncated toward zero. *)
Definition linspace_value (start end_ n i : Z) : Z :=
  Z.quot (start * n + i * (end_ - start)) n.

(** [torch.linspace(start, end, steps, dtype=torch.long)]: the values
    [start + i * (end - start) / (steps - 1)] for [i = 0 .. steps-1] of the
    documentation, computed exactly and converted to integers by
    truncation toward zero.  The end points and the range are those torch
    returns; at an interior position where the exact value is an integer
    torch, which computes in double precision, can return one less (see
    [torch_linspace_double]). *)
Definition torch_linspace (start end_ : Z) (steps : nat) : list Z :=
  match steps with
  | O => []
  | S O => [start]
  | S n => map (linspace_value start end_ (Z.of_nat n)) (range steps)
  end.

(** [static_cast<int64_t>(x)] of a double on x86-64: truncation toward
    zero; what does not fit gives the smallest [int64]. *)
Definition double_to_int64 (x : Float64.float) : Z :=
  match Float64.to_int x with
  | Ok z => if (- 2 ^ 63 <=? z) && (z <? 2 ^ 63) then z else - 2 ^ 63
  | Raise _ => - 2 ^ 63
  end.

(** [torch.linspace(start, end, steps, dtype=torch.long)] by the element
    formula of the CPU kernel: the step is the double
    [(end - start) / (steps - 1)], the first half of the values is
    [start + step * i], the second half [end - step * (steps - i - 1)],
    each computed in double precision and converted to [int64]. *)
Definition torch_linspace_double (start end_ : Z) (steps : nat) : list Z :=
  match steps with
  | O => []
  | S O => [start]
  | S n =>
      let step := Float64.div
                    (Float64.sub (Float64.round_int end_) (Float64.round_int start))
                    (Float64.round_int (Z.of_nat n)) in
      let halfway := Z.of_nat (steps / 2) in
      map (fun idx =>
             if idx <? halfway
             then double_to_int64
                    (Float64.add (Float64.round_int start)
                                 (Float64.mul step (Float64.round_int idx)))
             else double_to_int64
                    (Float64.sub (Float64.round_int end_)
                                 (Float64.mul step
                                    (Float64.round_int (Z.of_nat steps - idx - 1)))))
          (range steps)
  end.

(** An index into an axis of length [size]: negative indices count from
    the end, anything outside [-size, size) is an [IndexError]. *)
Definition wrap (size j : Z) : Z := if j <? 0 then j + size else j.

Definition normalize_index (size j : Z) : result Z :=
  if (- size <=? j) && (j <? size)
  then Ok (wrap size j)
  else Raise IndexError.

(** The entry [x] at position [w] after the positions [cols] were set
    to [v]. *)
Definition assigned (cols : list Z) (v : Z) (p : Z * Z) : Z :=
  let '(w, x) := p in if existsb (Z.eqb w) cols then v else x.

(** [row[indices] = v] on one line of the last axis; the bounds of the
    indices are checked where an entry is written. *)
Definition assign_row (indices : list Z) (v : Z) (row : list Z) : result (list Z) :=
  cols <- mapM (normalize_index (Z.of_nat (length row))) indices ;;
  Ok (map (assigned cols v) (combine (range (length row)) row)).

(** [m[:, indices] = v] *)
Definition assign_lines (indices : list Z) (v : Z) (m : list (list Z))
  : result (list (list Z)) :=
  mapM (assign_row indices v) m.

(** [mask[:, :, indices] = v] *)
Definition assign_all (indices : list Z) (v : Z) (mask : tensor3) : result tensor3 :=
  mapM (assign_lines indices v) mask.

(** [mask[i, :, indices] = v] for [i] in [range(len(mask))] *)
Definition assign_at (i : nat) (indices : list Z) (v : Z) (mask : tensor3)
  : result tensor3 :=
  match nth_error mask i with
  | Some m =>
      m' <- assign_lines indices v m ;;
      Ok (firstn i mask ++ m' :: skipn (S i) mask)
  | None => Raise IndexError
  end.

(** [torch.cat([mask.float().unsqueeze(1)] * c, dim=1)] *)
Definition cat_channels (mask : tensor3) (c : Z) : result tensor4 :=
  if c <=? 0 then Raise RuntimeError
  else Ok (map (fun m => repeat m (Z.to_nat c)) mask).

(** ** Predicates on masks *)

Definition binary (x : Z) : Prop := x = 0 \/ x = 1.

(** An (H, W) grid with entries 0 and 1 whose lines along the first axis
    are all the same list. *)
Definition grid_ok (H W : Z) (m : list (list Z)) : Prop :=
  Z.of_nat (length m) = H /\
  Forall (fun row => Z.of_nat (length row) = W /\ Forall binary row) m /\
  (forall r1 r2, In r1 m -> In r2 m -> r1 = r2).

(** The positions [indices] of the last axis hold 1 everywhere in [m]. *)
Definition lines_set (W : Z) (indices : list Z) (m : list (list Z)) : Prop :=
  forall j row, In j indices -> In row m ->
    nth_error row (Z.to_nat (wrap W j)) = Some 1.

(** A (B, H, W) mask made of such grids, with the lines [indices] set. *)
Definition mask_ok (B H W : Z) (indices : list Z) (mask : tensor3) : Prop :=
  Z.of_nat (length mask) = B /\
  Forall (fun m => grid_ok H W m /\ lines_set W indices m) mask.

(** Every entry of [t] is 0 or 1. *)
Definition binary4 (t : tensor4) : Prop :=
  Forall (Forall (Forall (Forall binary))) t.

(** The channel slices of every batch element are identical. *)
Definition channels_identical (t : tensor4) : Prop :=
  Forall (fun chans => forall m1 m2, In m1 chans -> In m2 chans -> m1 = m2) t.

(** Every line along the first axis of the (H, W) grids (fixed index on
    the last axis) is all ones or all zeros. *)
Definition columns_constant (W : Z) (t : tensor4) : Prop :=
  forall chans m w, In chans t -> In m chans -> 0 <= w < W ->
    (forall row, In row m -> nth_error row (Z.to_nat w) = Some 1) \/
    (forall row, In row m -> nth_error row (Z.to_nat w) = Some 0).

(** Every line along the last axis of the (H, W) grids (fixed index on
    the first axis) is all ones or all zeros. *)
Definition rows_constant (t : tensor4) : Prop :=
  forall chans m row, In chans t -> In m chans -> In row m ->
    Forall (fun x => x = 1) row \/ Forall (fun x => x = 0) row.

(** The positions [indices] of the last axis hold 1 in every grid. *)
Definition lines_set4 (W : Z) (indices : list Z) (t : tensor4) : Prop :=
  forall chans m, In chans t -> In m chans -> lines_set W indices m.

(** The line of length [W] that holds 1 at the positions [indices]
    (negative ones count from the end) and 0 elsewhere. *)
Definition line (W : Z) (indices : list Z) : list Z :=
  map (fun w => if existsb (Z.eqb w) (map (wrap W) indices) then 1 else 0)
      (range (Z.to_nat W)).

End Torch.

(* ================================================================== *)
(** * numpy's global random source *)
(* ================================================================== *)

Module Numpy.

Local Open Scope Z_scope.

(** What [np.random.choice(a, size=(k,), replace=False)] may return:
    [k] distinct integers of [0 .. a-1]. *)
Definition valid_choice (a k : Z) (l : list Z) : Prop :=
  Z.of_nat (length l) = k /\ NoDup l /\ Forall (fun x => 0 <= x < a) l.

(** [np.random.choice(a, size=(k,), replace=False)]; [outcome] is the
    sample drawn from the global random state. *)
Definition random_choice (a k : Z) (outcome : list Z) : result (list Z) :=
  if k <? 0 then Raise (ValueError "negative dimensions are not allowed")
  else if (a <=? 0) && negb (k =? 0)
  then Raise (ValueError "a must be greater than 0 unless no samples are taken")
  else if a <? k
  then Raise (ValueError "Cannot take a larger sample than population when 'replace=False'")
  else Ok outcome.

End Numpy.

(* ================================================================== *)
(** * mri.py *)
(* ================================================================== *)

Module AccelerationMaskGenerator.

Import Float64 Torch Numpy.
Local Open Scope Z_scope.
Local Open Scope py_scope.

(** The attributes set by [__init__]. *)
Record AccelerationMaskGenerator : Type := {
  device : string;
  img_size : list Z;
  acceleration : Z
}.

(** [__init__(self, img_size, acceleration=4, device="cpu")] *)
Definition init (img_size : list Z) (acceleration : option Z)
    (device : option string) : AccelerationMaskGenerator :=
  {| device := match device with Some d => d | None => "cpu"%string end;
     img_size := img_size;
     acceleration := match acceleration with Some a => a | None => 4 end |}.

(** The local variables of [step] that are assigned in a branch only;
    [None] is a name not bound yet. *)
Record locals : Type := {
  num_lines_center : option Z;
  num_lines_side : option Z
}.

Definition unbound : locals :=
  {| num_lines_center := None; num_lines_side := None |}.

(** Reading a local variable. *)
Definition local (name : string) (v : option Z) : result Z :=
  match v with
  | Some x => Ok x
  | None => Raise (UnboundLocalError name)
  end.

(** The body shared by the two branches on [acceleration_factor]
    (lines 57-60 and 62-65): [total] is 0.25, respectively 0.125. *)
Definition density (central_lines_percent total : float) (W : Z) : result locals :=
  num_lines_center <- int_of_scaled central_lines_percent W ;;
  let side_lines_percent := sub total central_lines_percent in
  num_lines_side <- int_of_scaled side_lines_percent W ;;
  Ok {| num_lines_center := Some num_lines_center;
        num_lines_side := Some num_lines_side |}.

(** Lines 69-74. *)
Definition center_line_indices (H num_lines_center : Z) : list Z :=
  torch_linspace (H / 2 - num_lines_center / 2)
                 (H / 2 + num_lines_center / 2 + 1) 50.

(** The loop of lines 77-81 over the batch indices [batch]; [rng i] is the
    sample that [np.random.choice] draws in iteration [i]. *)
Fixpoint random_lines (H : Z) (l : locals) (rng : nat -> list Z)
    (batch : list nat) (mask : tensor3) : result tensor3 :=
  match batch with
  | [] => Ok mask
  | i :: batch' =>
      ns <- local "num_lines_side" (num_lines_side l) ;;
      random_line_indices <- random_choice H (ns / 2) (rng i) ;;
      mask' <- assign_at i random_line_indices 1 mask ;;
      random_lines H l rng batch' mask'
  end.

(** Lines 46-52: [C], [H] and [W]. *)
Definition unpack_img_size (img_size : list Z) : result (Z * Z * Z) :=
  match img_size with
  | [H; W] => Ok (2, H, W)
  | [C; H; W] => Ok (C, H, W)
  | _ => Raise (ValueError "img_size must be (C, H, W) or (H, W)")
  end.

(** Lines 56-65: the two [if] statements, one after the other. *)
Definition densities (acceleration_factor W : Z) : result locals :=
  l <- (if acceleration_factor =? 4
        then density (literal 8 100) (literal 25 100) W
        else Ok unbound) ;;
  if acceleration_factor =? 8
  then density (literal 4 100) (literal 125 1000) W
  else Ok l.

(** [step(self, batch_size=1)]; [linspace] is [torch.linspace] with
    [dtype=torch.long], a function of the library. *)
Definition step_with (linspace : Z -> Z -> nat -> list Z)
    (self : AccelerationMaskGenerator) (batch_size : Z)
    (rng : nat -> list Z) : result (list (string * tensor4)) :=
  chw <- unpack_img_size (img_size self) ;;
  let '(C, H, W) := chw in
  let acceleration_factor := acceleration self in
  l <- densities acceleration_factor W ;;
  mask <- torch_zeros batch_size H W ;;
  nc <- local "num_lines_center" (num_lines_center l) ;;
  let center_line_indices :=
    linspace (H / 2 - nc / 2) (H / 2 + nc / 2 + 1) 50%nat in
  mask <- assign_all center_line_indices 1 mask ;;
  mask <- random_lines H l rng (seq 0 (Z.to_nat batch_size)) mask ;;
  t <- cat_channels mask C ;;
  Ok [("mask"%string, t)].

(** [step] with the values of [torch.linspace] as its documentation gives
    them; what is proved of it below depends on the number of values, on
    their range and on the end points only. *)
Definition step (self : AccelerationMaskGenerator) (batch_size : Z)
    (rng : nat -> list Z) : result (list (string * tensor4)) :=
  step_with torch_linspace self batch_size rng.

(** A test of the conditions under which no line index of [step] leaves
    the last axis and the random draw is feasible. *)
Definition lines_fit (acceleration_factor H W : Z) : bool :=
  match densities acceleration_factor W with
  | Ok {| num_lines_center := Some nc; num_lines_side := Some ns |} =>
      (- W <=? H / 2 - nc / 2) && (H / 2 + nc / 2 + 1 <? W)
      && (ns / 2 <=? H) && ((ns / 2 <=? 0) || (H <=? W))
  | _ => false
  end.

End AccelerationMaskGenerator.

(* ================================================================== *)
(** * Sample inputs *)
(* ================================================================== *)

(** A 1x3x2x2 image, a 1x1x2x2 depth map and a scalar light. *)
Definition image0 : Haze.tensor :=
  Haze.mkTensor [1; 3; 2; 2]%nat (fun _ => (1 / 2)%R).
Definition depth0 : Haze.tensor :=
  Haze.mkTensor [1; 1; 2; 2]%nat (fun _ => 2%R).
Definition state0 : Haze.state := (image0, depth0, Haze.Scalar 1%R).

(** A tensor with two axes only. *)
Definition flat0 : Haze.tensor :=
  Haze.mkTensor [2; 2]%nat (fun _ => 1%R).

(** Float32 tensors: a 1x3x2x2 image of entries 0.5, a 1x1x2x2 depth map
    of entries 2.0 and one of entries +inf; the Python floats 0.0, 1.0
    and +inf. *)
Definition half32 : Float32.float := S754_finite false 8388608 (-24).
Definition two32 : Float32.float := S754_finite false 8388608 (-22).
Definition image32 : Haze32.tensor :=
  Haze32.mkTensor [1; 3; 2; 2]%nat (fun _ => half32).
Definition depth32 : Haze32.tensor :=
  Haze32.mkTensor [1; 1; 2; 2]%nat (fun _ => two32).
Definition depth_inf : Haze32.tensor :=
  Haze32.mkTensor [1; 1; 2; 2]%nat (fun _ => S754_infinity false).
Definition py_zero : Float64.float := S754_zero false.
Definition py_one : Float64.float := Float64.round_int 1.
Definition py_inf : Float64.float := S754_infinity false.
Definition state32 : Haze32.state := (image32, depth32, Haze32.Scalar py_one).
Definition state32_inf_light : Haze32.state :=
  (image32, depth32, Haze32.Scalar py_inf).
Definition state32_inf_depth : Haze32.state :=
  (image32, depth_inf, Haze32.Scalar py_one).

(** The float32 nearest to 0.1, an image of this value, the argument
    -0.2 of [exp] met with depth 2.0 and [beta = 0.1], the float32
    nearest to its exponential, and the float32 next above 0.1. *)
Definition tenth32 : Float32.float := S754_finite false 13421773 (-27).
Definition image_tenth : Haze32.tensor :=
  Haze32.mkTensor [1; 3; 2; 2]%nat (fun _ => tenth32).
Definition state_tenth : Haze32.state :=
  (image_tenth, depth32, Haze32.Scalar (Float64.literal 1 10)).
Definition minus_fifth32 : Float32.float := S754_finite true 13421773 (-26).
Definition exp_minus_fifth32 : Float32.float := S754_finite false 13736023 (-24).
Definition above_tenth32 : Float32.float := S754_finite false 13421774 (-27).

(** The generator of the docstring, [AccelerationMaskGenerator((16, 16))],
    and a random source whose draw is line 3. *)
Definition gen16 : AccelerationMaskGenerator.AccelerationMaskGenerator :=
  AccelerationMaskGenerator.init [16; 16]%Z None None.
Definition rng16 : nat -> list Z := fun _ => [3%Z].

(** The mask [gen16] returns with [rng16]: lines 3, 8 and 9 of the last
    axis are set. *)
Definition row16 : list Z := [0; 0; 0; 1; 0; 0; 0; 0; 1; 1; 0; 0; 0; 0; 0; 0]%Z.
Definition grid16 : list (list Z) := repeat row16 16.
Definition mask16 : Torch.tensor4 := [[grid16; grid16]].

(** An unsupported acceleration factor, an image size of one element and
    an image higher than wide. *)
Definition gen16_acc5 : AccelerationMaskGenerator.AccelerationMaskGenerator :=
  AccelerationMaskGenerator.init [16; 16]%Z (Some 5%Z) None.
Definition gen_rank1 : AccelerationMaskGenerator.AccelerationMaskGenerator :=
  AccelerationMaskGenerator.init [16]%Z None None.
Definition gen32x16 : AccelerationMaskGenerator.AccelerationMaskGenerator :=
  AccelerationMaskGenerator.init [32; 16]%Z None None.

(** A square image of side 2. *)
Definition gen2x2 : AccelerationMaskGenerator.AccelerationMaskGenerator :=
  AccelerationMaskGenerator.init [2; 2]%Z None None.

(** The mask [gen16] returns for a batch of two with [rng16']: the second
    element has lines 5, 8 and 9 set. *)
Definition row16b : list Z := [0; 0; 0; 0; 0; 1; 0; 0; 1; 1; 0; 0; 0; 0; 0; 0]%Z.
Definition grid16b : list (list Z) := repeat row16b 16.
Definition mask16b : Torch.tensor4 := [[grid16; grid16]; [grid16b; grid16b]].

(** A wide image: more random lines are asked for than [H] offers. *)
Definition gen4x100 : AccelerationMaskGenerator.AccelerationMaskGenerator :=
  AccelerationMaskGenerator.init [4; 100]%Z None None.

(** A square image of side 1000 and a second random source. *)
Definition gen1000 : AccelerationMaskGenerator.AccelerationMaskGenerator :=
  AccelerationMaskGenerator.init [1000; 1000]%Z None None.
Definition rng16b : nat -> list Z :=
  fun i => match i with O => [3%Z] | _ => [5%Z] end.


(* ================================================================== *)
(** * Properties of broadcasting *)
(* ================================================================== *)

Section Broadcasting.

Lemma broadcast_dim_comm a b : broadcast_dim a b = broadcast_dim b a.
Proof.
  unfold broadcast_dim.
  destruct (Nat.eqb_spec a b) as [->|Hab].
  - now rewrite Nat.eqb_refl.
  - destruct (Nat.eqb_spec b a) as [->|_]; [congruence|].
    destruct (Nat.eqb_spec a 1) as [->|Ha], (Nat.eqb_spec b 1) as [->|Hb];
      congruence.
Qed.

Lemma broadcast_aligned_nil_r s : broadcast_aligned s [] = Some s.
Proof. now destruct s. Qed.

Lemma broadcast_aligned_comm s1 s2 :
  broadcast_aligned s1 s2 = broadcast_aligned s2 s1.
Proof.
  revert s2; induction s1 as [|a s1 IH]; intros [|b s2]; simpl; trivial.
  now rewrite broadcast_dim_comm, IH.
Qed.

Lemma broadcast_dim_fits a b :
  broadcast_dim a b = Some b <-> (a = b \/ a = 1%nat).
Proof.
  unfold broadcast_dim.
  destruct (Nat.eqb_spec a b) as [->|Hab]; [intuition|].
  destruct (Nat.eqb_spec a 1) as [->|Ha]; [intuition|].
  destruct (Nat.eqb_spec b 1) as [->|Hb]; split; intros H;
    try discriminate; try (injection H; intros); intuition congruence.
Qed.

Lemma broadcast_aligned_fits d s :
  broadcast_aligned d s = Some s <-> fits d s.
Proof.
  revert s; induction d as [|a d IH]; intros [|b s]; simpl;
    try (split; [trivial | reflexivity]).
  - split; [discriminate | contradiction].
  - specialize (IH s).
    destruct (broadcast_dim a b) as [c|] eqn:Hd.
    + destruct (broadcast_aligned d s) as [u|] eqn:Hu.
      * split.
        -- intros H; injection H as -> ->.
           split; [now apply broadcast_dim_fits | now apply IH].
        -- intros [Hab Hf]. apply broadcast_dim_fits in Hab.
           apply IH in Hf. congruence.
      * split; [discriminate|]. intros [_ Hf]. apply IH in Hf. discriminate.
    + split; [discriminate|]. intros [Hab _].
      apply broadcast_dim_fits in Hab. congruence.
Qed.

Lemma fits_refl s : fits s s.
Proof. induction s; simpl; auto. Qed.

(** Two shapes that fit a third one broadcast together, and the result
    still fits. *)
Lemma fits_join d l s :
  fits d s -> fits l s ->
  exists u, broadcast_aligned d l = Some u /\ fits u s /\ fits d u /\ fits l u.
Proof.
  revert l s; induction d as [|a d IH]; intros l s Hd Hl.
  - exists l; simpl. repeat split; auto using fits_refl.
  - destruct s as [|c s]; [contradiction|]. destruct Hd as [Ha Hd].
    destruct l as [|b l].
    + exists (a :: d); simpl. repeat split; auto using fits_refl.
    + destruct Hl as [Hb Hl].
      destruct (IH l s Hd Hl) as (u & Hu & Hus & Hdu & Hlu).
      simpl. rewrite Hu.
      unfold broadcast_dim.
      destruct (Nat.eqb_spec a b) as [->|Hab].
      * exists (b :: u). simpl; intuition.
      * destruct (Nat.eqb_spec a 1) as [->|Ha1].
        -- exists (b :: u). simpl; intuition.
        -- destruct (Nat.eqb_spec b 1) as [->|Hb1].
           ++ exists (a :: u). simpl; intuition.
           ++ exfalso. destruct Ha, Hb; congruence.
Qed.

Lemma index_aligned_compose d u idx :
  fits d u ->
  index_aligned d (index_aligned u idx) = index_aligned d idx.
Proof.
  revert u idx; induction d as [|a d IH]; intros u idx Hf; [reflexivity|].
  destruct u as [|b u]; [contradiction|]. destruct Hf as [Hab Hf].
  destruct idx as [|i idx]; [reflexivity|]. simpl.
  rewrite (IH u idx Hf). f_equal.
  destruct (Nat.eqb_spec a 1) as [->|Ha]; [reflexivity|].
  destruct Hab as [->|]; [|contradiction].
  now destruct (Nat.eqb_spec b 1).
Qed.

Lemma index_aligned_id s idx :
  Forall2 lt idx s -> index_aligned s idx = idx.
Proof.
  intros H; induction H as [|i d idx s Hlt _ IH]; [reflexivity|].
  simpl. rewrite IH. f_equal.
  destruct (Nat.eqb_spec d 1) as [->|]; [lia | reflexivity].
Qed.

Lemma Forall2_rev_lt (l1 l2 : list nat) :
  Forall2 lt l1 l2 -> Forall2 lt (rev l1) (rev l2).
Proof.
  intros H; induction H; simpl; [constructor|].
  apply Forall2_app; auto.
Qed.

(** The same facts for shapes written in the usual order. *)

Lemma broadcastable_fits s t : broadcastable s t <-> fits (rev s) (rev t).
Proof.
  unfold broadcastable, broadcast_shapes.
  rewrite <- broadcast_aligned_fits.
  destruct (broadcast_aligned (rev s) (rev t)) as [u|]; simpl.
  - split; intros H.
    + injection H as <-. now rewrite rev_involutive.
    + injection H as ->. now rewrite rev_involutive.
  - split; discriminate.
Qed.

Lemma broadcast_shapes_fits s t :
  fits (rev s) (rev t) -> broadcast_shapes s t = Some t.
Proof. apply broadcastable_fits. Qed.

Lemma broadcast_shapes_comm s t : broadcast_shapes s t = broadcast_shapes t s.
Proof. unfold broadcast_shapes. now rewrite broadcast_aligned_comm. Qed.

Lemma broadcast_index_id s idx :
  valid_index s idx -> broadcast_index s idx = idx.
Proof.
  intros H. unfold broadcast_index.
  rewrite index_aligned_id by now apply Forall2_rev_lt.
  apply rev_involutive.
Qed.

Lemma broadcast_index_compose d u idx :
  fits (rev d) (rev u) ->
  broadcast_index d (broadcast_index u idx) = broadcast_index d idx.
Proof.
  intros H. unfold broadcast_index.
  now rewrite rev_involutive, index_aligned_compose.
Qed.

End Broadcasting.

(* ================================================================== *)
(** * Properties of Haze *)
(* ================================================================== *)

Section HazeProperties.

Import Haze.
Local Open Scope R_scope.

Variable self : Haze.

(** What [A] computes on a latent state, entry by entry. *)
Lemma A_entries (im d : tensor) (L : operand) :
  latent_state (im, d, L) ->
  exists y,
    A self (im, d, L) = Ok y /\
    shape y = shape im /\
    forall idx, valid_index (shape im) idx ->
      entry y idx =
        transmittance self d idx * entry im idx
        + (1 - transmittance self d idx) * operand_entry L idx.
Proof.
  intros [Hd HL]. unfold A, tensor_mul, tensor_add, elementwise; simpl.
  pose proof Hd as Hd'. apply broadcastable_fits in Hd'.
  rewrite Hd. simpl.
  destruct L as [r | l]; simpl.
  - (* a Python float *)
    rewrite broadcast_shapes_comm, Hd. simpl.
    eexists; split; [reflexivity|]. split; [reflexivity|].
    intros idx Hidx. simpl. unfold transmittance.
    rewrite !(broadcast_index_id _ _ Hidx).
    reflexivity.
  - (* a tensor *)
    pose proof HL as HL'. apply broadcastable_fits in HL'.
    destruct (fits_join _ _ _ Hd' HL') as (u & Hu & Hus & Hdu & Hlu).
    unfold tensor_mul, elementwise; simpl.
    unfold broadcast_shapes at 1. rewrite Hu. simpl.
    assert (Hfu : fits (rev (rev u)) (rev (shape im)))
      by now rewrite rev_involutive.
    rewrite broadcast_shapes_comm, (broadcast_shapes_fits _ _ Hfu). simpl.
    eexists; split; [reflexivity|]. split; [reflexivity|].
    intros idx Hidx. simpl. unfold transmittance.
    rewrite !(broadcast_index_id _ _ Hidx).
    assert (Hdu' : fits (rev (shape d)) (rev (rev u)))
      by now rewrite rev_involutive.
    assert (Hlu' : fits (rev (shape l)) (rev (rev u)))
      by now rewrite rev_involutive.
    rewrite (broadcast_index_compose _ _ idx Hdu').
    rewrite (broadcast_index_compose _ _ idx Hlu').
    reflexivity.
Qed.

Lemma transmittance_range (d : tensor) (idx : list nat) :
  0 <= beta self -> 0 <= entry d (broadcast_index (shape d) idx) ->
  0 < transmittance self d idx <= 1.
Proof.
  intros Hb Hd. unfold transmittance. split; [apply exp_pos|].
  rewrite <- exp_0.
  set (v := entry d (broadcast_index (shape d) idx)) in *.
  assert (Hle : - beta self * v <= 0) by nra.
  destruct Hle as [Hlt | Heq].
  - left. now apply exp_increasing.
  - rewrite Heq. apply Rle_refl.
Qed.

Lemma convex_between (t a b : R) :
  0 <= t <= 1 ->
  Rmin a b <= t * a + (1 - t) * b <= Rmax a b.
Proof.
  intros [H0 H1]. unfold Rmin, Rmax.
  destruct (Rle_dec a b); split; nra.
Qed.

Lemma index_aligned_valid d s idx :
  fits d s -> Forall2 lt idx s -> Forall2 lt (index_aligned d idx) d.
Proof.
  revert s idx; induction d as [|a d IH]; intros s idx Hf Hv; [constructor|].
  destruct s as [|b s]; [contradiction|]. destruct Hf as [Hab Hf].
  inversion Hv as [|i c idx' s' Hlt Hv']; subst. simpl.
  constructor; [|now apply (IH s)].
  destruct (Nat.eqb_spec a 1) as [->|Ha]; [lia|].
  destruct Hab; [subst; assumption | contradiction].
Qed.

Lemma broadcast_index_valid d s idx :
  broadcastable d s -> valid_index s idx ->
  valid_index d (broadcast_index d idx).
Proof.
  intros Hf Hv. apply broadcastable_fits in Hf.
  unfold valid_index, broadcast_index.
  rewrite <- (rev_involutive d) at 2.
  apply Forall2_rev_lt.
  apply (index_aligned_valid _ _ _ Hf). now apply Forall2_rev_lt.
Qed.


(** C2. For an observation [y] of shape (B, C, H, W), [A_adjoint]
    returns the triple (y, depth_seed, 1.0), in this order; depth_seed has
    shape (B, 1, H, W) and all its entries are 1.  The last two components
    are the same for every observation of that shape, and nothing but [y]
    is needed. *)
Theorem Haze_A_adjoint_seed (y : tensor) (B C H W : nat) :
  shape y = [B; C; H; W] ->
  exists depth_seed,
    A_adjoint self y = Ok (y, depth_seed, Scalar 1) /\
    shape depth_seed = [B; 1%nat; H; W] /\
    (forall idx, entry depth_seed idx = 1) /\
    forall y', shape y' = [B; C; H; W] ->
      A_adjoint self y' = Ok (y', depth_seed, Scalar 1).
Proof.
  intros Hs. exists (torch_ones [B; 1%nat; H; W]).
  unfold A_adjoint. rewrite Hs.
  split; [reflexivity|]. split; [reflexivity|]. split; [reflexivity|].
  intros y' Hs'. now rewrite Hs'.
Qed.

(** In exact arithmetic, with [beta >= 0] and a depth that is
    nonnegative at every pixel, every entry of
    [t * image + (1 - t) * atmospheric_light], [t = exp(-beta * depth)],
    lies between the entry of [image] and the entry of
    [atmospheric_light] at that pixel, bounds included. *)
Theorem Haze_A_convex (im d : tensor) (L : operand) :
  latent_state (im, d, L) ->
  0 <= beta self ->
  (forall idx, valid_index (shape d) idx -> 0 <= entry d idx) ->
  exists y,
    A self (im, d, L) = Ok y /\
    forall idx, valid_index (shape im) idx ->
      Rmin (entry im idx) (operand_entry L idx) <= entry y idx
      /\ entry y idx <= Rmax (entry im idx) (operand_entry L idx).
Proof.
  intros Hx Hb Hd. destruct (A_entries im d L Hx) as (y & Hy & _ & He).
  exists y. split; [assumption|].
  intros idx Hidx. rewrite (He idx Hidx).
  apply convex_between.
  destruct (transmittance_range d idx Hb) as [H0 H1]; [|lra].
  apply Hd, (broadcast_index_valid _ (shape im)); [apply Hx | assumption].
Qed.

End HazeProperties.

Section HazeExamples.

Import Haze.
Local Open Scope R_scope.

Lemma state0_latent : latent_state state0.
Proof. split; [reflexivity | exact I]. Qed.


Lemma Haze_A_adjoint_seed_witness :
  shape image0 = [1; 3; 2; 2]%nat /\
  exists depth_seed,
    A_adjoint (init None) image0 = Ok (image0, depth_seed, Scalar 1) /\
    shape depth_seed = [1; 1; 2; 2]%nat /\
    (forall idx, entry depth_seed idx = 1) /\
    forall y', shape y' = [1; 3; 2; 2]%nat ->
      A_adjoint (init None) y' = Ok (y', depth_seed, Scalar 1).
Proof.
  split; [reflexivity|].
  exact (Haze_A_adjoint_seed (init None) image0 1 3 2 2 eq_refl).
Defined.

Lemma Haze_A_convex_witness :
  latent_state state0 /\ 0 <= beta (init None) /\
  exists y,
    A (init None) state0 = Ok y /\
    forall idx, valid_index (shape image0) idx ->
      Rmin (entry image0 idx) 1 <= entry y idx
      /\ entry y idx <= Rmax (entry image0 idx) 1.
Proof.
  split; [exact state0_latent|]. split; [simpl; lra|].
  apply (Haze_A_convex (init None) image0 depth0 (Scalar 1) state0_latent).
  - simpl; lra.
  - intros idx _. simpl; lra.
Defined.

End HazeExamples.

(* ================================================================== *)
(** * Properties of [Haze] on float32 tensors *)
(* ================================================================== *)

Section Float32Arithmetic.

Import Float32.
Local Open Scope Z_scope.

Lemma of_double_one : of_double (Float64.round_int 1) = one.
Proof. vm_compute. reflexivity. Qed.

Lemma bounded_canonical m e :
  bounded prec emax m e = true ->
  fexp prec emax (Zpos (digits2_pos m) + e) = e /\ e <= emax - prec.
Proof.
  unfold bounded, canonical_mantissa. intros Hb.
  apply andb_prop in Hb. destruct Hb as [Hc He].
  apply Z.eqb_eq in Hc. apply Z.leb_le in He. split; assumption.
Qed.

(** The product of 1.0 and a float32 value is that value: the 23 bits the
    product adds to the mantissa are zeros and are shifted out again. *)
Lemma mul_one_l x : valid x = true -> mul one x = x.
Proof.
  destruct x as [s | s | | s m e]; try reflexivity.
  unfold valid, valid_binary. intros Hb.
  destruct (bounded_canonical m e Hb) as [Hc He].
  unfold mul, one, SFmul. cbn [xorb Pos.mul].
  unfold binary_round_aux, shr_fexp.
  assert (Hshift :
    fexp prec emax
      (Zdigits2 (Zpos m~0~0~0~0~0~0~0~0~0~0~0~0~0~0~0~0~0~0~0~0~0~0~0)
       + (-23 + e)) - (-23 + e) = 23).
  { cbn [Zdigits2 digits2_pos]. rewrite !Pos2Z.inj_succ.
    replace (Z.succ (Z.succ (Z.succ (Z.succ (Z.succ (Z.succ (Z.succ (Z.succ
             (Z.succ (Z.succ (Z.succ (Z.succ (Z.succ (Z.succ (Z.succ (Z.succ
             (Z.succ (Z.succ (Z.succ (Z.succ (Z.succ (Z.succ (Z.succ
             (Zpos (digits2_pos m)))))))))))))))))))))))) + (-23 + e))
      with (Zpos (digits2_pos m) + e) by lia.
    rewrite Hc. lia. }
  rewrite Hshift.
  cbn [shr shr_record_of_loc iter_pos shr_1 orb shr_m loc_of_shr_record
       round_nearest_even].
  replace (-23 + e + 23) with e by lia.
  cbn [Zdigits2]. rewrite Hc, Z.sub_diag. cbn [shr shr_m].
  destruct (Z.leb_spec e (emax - prec)); [reflexivity | lia].
Qed.

(** [x == x] for every [x] but NaN. *)
Lemma eqb_refl x : is_nan x = false -> eqb x x = true.
Proof.
  destruct x as [s | s | | s m e]; try reflexivity; try discriminate.
  - intros _. destruct s; reflexivity.
  - intros _. unfold eqb, SFeqb, SFcompare.
    rewrite Z.compare_refl, Pos.compare_cont_refl. destruct s; reflexivity.
Qed.

(** Adding a zero changes no value; it can change the sign of a zero. *)
Lemma add_zero_r x s : is_nan x = false -> eqb (add x (S754_zero s)) x = true.
Proof.
  intros Hx. destruct x as [sx | sx | | sx m e]; try discriminate.
  - destruct sx, s; reflexivity.
  - destruct sx; reflexivity.
  - apply (eqb_refl (S754_finite sx m e)). reflexivity.
Qed.

Lemma add_zero_l x s : is_nan x = false -> eqb (add (S754_zero s) x) x = true.
Proof.
  intros Hx. destruct x as [sx | sx | | sx m e]; try discriminate.
  - destruct sx, s; reflexivity.
  - destruct sx; reflexivity.
  - apply (eqb_refl (S754_finite sx m e)). reflexivity.
Qed.

(** A finite value times a zero is a zero. *)
Lemma mul_finite_zero x s :
  is_finite x = true -> exists s', mul x (S754_zero s) = S754_zero s'.
Proof.
  destruct x as [sx | sx | | sx m e]; try discriminate; intros _;
    eexists; reflexivity.
Qed.

Lemma mul_zero_finite x s :
  is_finite x = true -> exists s', mul (S754_zero s) x = S754_zero s'.
Proof.
  destruct x as [sx | sx | | sx m e]; try discriminate; intros _;
    eexists; reflexivity.
Qed.

End Float32Arithmetic.

(* ================================================================== *)
(** * Rounding of the float32 operations *)
(* ================================================================== *)

Section Rounding.

Import Float32.
Local Open Scope Z_scope.

(** ** Digits *)

Lemma digits2_pos_size p : digits2_pos p = Pos.size p.
Proof. induction p; simpl; congruence. Qed.

Lemma digits2_bounds p :
  2 ^ (Zpos (digits2_pos p) - 1) <= Zpos p < 2 ^ Zpos (digits2_pos p).
Proof.
  induction p as [p IH | p IH |]; cbn [digits2_pos].
  - rewrite Pos2Z.inj_succ.
    replace (Z.succ (Zpos (digits2_pos p)) - 1) with (Z.succ (Zpos (digits2_pos p) - 1)) by lia.
    rewrite !Z.pow_succ_r by lia. lia.
  - rewrite Pos2Z.inj_succ.
    replace (Z.succ (Zpos (digits2_pos p)) - 1) with (Z.succ (Zpos (digits2_pos p) - 1)) by lia.
    rewrite !Z.pow_succ_r by lia. lia.
  - simpl. lia.
Qed.

Lemma digits2_unique p n :
  2 ^ (n - 1) <= Zpos p < 2 ^ n -> Zpos (digits2_pos p) = n.
Proof.
  intros [Hlo Hhi]. pose proof (digits2_bounds p) as [Dlo Dhi].
  assert (Hn : 0 < n).
  { destruct (Z.ltb_spec 0 n); [assumption|].
    destruct (Z.eq_dec n 0) as [->|]; [simpl in Hhi; lia|].
    rewrite Z.pow_neg_r in Hhi by lia. lia. }
  assert (H1 : n - 1 < Zpos (digits2_pos p)).
  { apply (Z.pow_lt_mono_r_iff 2); lia. }
  assert (H2 : Zpos (digits2_pos p) - 1 < n).
  { apply (Z.pow_lt_mono_r_iff 2); lia. }
  lia.
Qed.

(** ** Shifts to the right *)

Lemma shifted_0 m0 :
  0 <= m0 -> shifted m0 0 {| shr_m := m0; shr_r := false; shr_s := false |}.
Proof.
  intros H. split; [assumption|]. exists 0. cbn [shr_m shr_r shr_s].
  change (2 ^ 0) with 1. change (2 ^ (0 + 1)) with 2.
  split; [lia|]. split; [tauto | lia].
Qed.

Lemma shr_1_halves m r s :
  0 <= m ->
  exists m' r',
    shr_1 {| shr_m := m; shr_r := r; shr_s := s |}
    = {| shr_m := m'; shr_r := r'; shr_s := r || s |} /\
    m = 2 * m' + (if r' then 1 else 0) /\ 0 <= m'.
Proof.
  intros Hm. destruct m as [|[p|p|]|p]; [| | | |lia]; cbn [shr_1].
  - exists 0, false. repeat split; lia.
  - exists (Zpos p), true. repeat split; lia.
  - exists (Zpos p), false. repeat split; lia.
  - exists 0, true. repeat split; lia.
Qed.

Lemma shifted_step m0 k mrs :
  0 <= k -> shifted m0 k mrs -> shifted m0 (k + 1) (shr_1 mrs).
Proof.
  intros Hk [Hm (low & Hlow & Hs & Heq)].
  assert (Hp : 0 < 2 ^ k) by (apply Z.pow_pos_nonneg; lia).
  assert (E1 : 2 ^ (k + 1) = 2 * 2 ^ k) by (rewrite Z.pow_add_r by lia; lia).
  assert (E2 : 2 ^ (k + 1 + 1) = 4 * 2 ^ k)
    by (rewrite !Z.pow_add_r by lia; lia).
  destruct mrs as [m r s]. cbn [shr_m shr_r shr_s] in *.
  destruct (shr_1_halves m r s Hm) as (m' & r' & -> & Hm2 & Hm').
  unfold shifted. cbn [shr_m shr_r shr_s]. rewrite E1, E2. rewrite E1 in Heq.
  split; [assumption|].
  exists ((if r then 2 ^ k else 0) + low).
  split; [destruct r; lia|]. split.
  - destruct r; cbn [orb].
    + split; intros Hx; [discriminate | lia].
    + rewrite Z.add_0_l. exact Hs.
  - subst m. destruct r'; lia.
Qed.

Lemma shifted_iter m0 p : forall k mrs,
  0 <= k -> shifted m0 k mrs ->
  shifted m0 (k + Zpos p) (iter_pos shr_1 p mrs).
Proof.
  induction p as [p IH | p IH |]; intros k mrs Hk Hmrs; cbn [iter_pos].
  - replace (k + Zpos p~1) with (k + 1 + Zpos p + Zpos p) by lia.
    apply IH; [lia|]. apply IH; [lia|]. now apply shifted_step.
  - replace (k + Zpos p~0) with (k + Zpos p + Zpos p) by lia.
    apply IH; [lia|]. now apply IH.
  - now apply shifted_step.
Qed.

(** ** Rounding to nearest, ties to even *)

Lemma round_nearest_even_shifted m0 k mrs :
  0 <= k -> shifted m0 k mrs ->
  let m := round_nearest_even (shr_m mrs) (loc_of_shr_record mrs) in
  shr_m mrs <= m <= shr_m mrs + 1 /\
  - 2 ^ k <= m * 2 ^ (k + 1) - 2 * m0 <= 2 ^ k /\
  shr_m mrs * 2 ^ k <= m0 < (shr_m mrs + 1) * 2 ^ k.
Proof.
  intros Hk [Hm (low & Hlow & Hs & Heq)].
  assert (Hp : 0 < 2 ^ k) by (apply Z.pow_pos_nonneg; lia).
  assert (E1 : 2 ^ (k + 1) = 2 * 2 ^ k) by (rewrite Z.pow_add_r by lia; lia).
  rewrite E1 in *.
  destruct mrs as [m r s]. cbn [shr_m shr_r shr_s] in *. cbv zeta.
  assert (Hlast : m * 2 ^ k <= m0 < (m + 1) * 2 ^ k) by (destruct r; lia).
  destruct r, s; cbn [loc_of_shr_record round_nearest_even].
  - split; [lia|]. split; [lia | assumption].
  - destruct Hs as [Hs _]. specialize (Hs eq_refl).
    destruct (Z.even m); (split; [lia|]); (split; [lia | assumption]).
  - split; [lia|]. split; [lia | assumption].
  - split; [lia|]. split; [lia | assumption].
Qed.


Lemma shr_nonpos mrs e n : n <= 0 -> shr mrs e n = (mrs, e).
Proof. destruct n; [reflexivity | lia | reflexivity]. Qed.

Lemma mul_pow_lt a b k : 0 <= k -> a * 2 ^ k < b * 2 ^ k -> a < b.
Proof.
  intros Hk H. apply Z.mul_lt_mono_pos_r in H; [assumption|].
  apply Z.pow_pos_nonneg; lia.
Qed.

(** The result of [binary_round_aux] on a positive mantissa: either no
    bit is dropped, or the mantissa is shifted by [k] bits and rounded to
    [m2], with an error of at most half a unit of the new last place. *)
Lemma binary_round_aux_cases sx mx ex :
  let E := fexp prec emax (Zpos (digits2_pos mx) + ex) in
  let r := binary_round_aux prec emax sx (Zpos mx) ex loc_Exact in
  (E <= ex /\
   r = if ex <=? emax - prec then S754_finite sx mx ex else S754_infinity sx)
  \/
  (ex < E /\
   exists m2,
     0 <= m2 /\
     - 2 ^ (E - ex) <= m2 * 2 ^ (E - ex + 1) - 2 * Zpos mx <= 2 ^ (E - ex) /\
     ((m2 = 0 /\ r = S754_zero sx) \/
      exists m' e',
        r = (if e' <=? emax - prec then S754_finite sx m' e'
             else S754_infinity sx) /\
        ((Zpos m' = m2 /\ e' = E) \/
         (2 * Zpos m' = m2 /\ e' = E + 1)))).
Proof.
  cbv zeta.
  set (d := Zpos (digits2_pos mx)).
  set (E := fexp prec emax (d + ex)).
  pose proof (digits2_bounds mx) as [Dlo Dhi]. fold d in Dlo, Dhi.
  assert (Hd : 0 < d) by (unfold d; lia).
  assert (HE : E = Z.max (d + ex - 24) (-149)) by reflexivity.
  unfold binary_round_aux, shr_fexp. cbn [Zdigits2]. fold d. fold E.
  cbn [shr_record_of_loc].
  destruct (Z.le_gt_cases E ex) as [Hle | Hgt].
  - left. split; [assumption|].
    rewrite (shr_nonpos _ _ (E - ex)) by lia.
    cbn [shr_m loc_of_shr_record round_nearest_even Zdigits2]. fold d. fold E.
    rewrite (shr_nonpos _ _ (E - ex)) by lia.
    cbn [shr_m]. reflexivity.
  - right. split; [assumption|].
    destruct (E - ex) as [|p|p] eqn:Ek; [lia| |lia].
    cbn [shr].
    pose proof (shifted_iter (Zpos mx) p 0 _ ltac:(lia)
                  (shifted_0 (Zpos mx) ltac:(lia))) as Hsh.
    rewrite Z.add_0_l in Hsh.
    set (mrs := iter_pos shr_1 p
                  {| shr_m := Zpos mx; shr_r := false; shr_s := false |}) in *.
    pose proof Hsh as [Hm1 _].
    destruct (round_nearest_even_shifted (Zpos mx) (Zpos p) mrs ltac:(lia) Hsh)
      as (Hm2 & Herr & Hm1b).
    set (m2 := round_nearest_even (shr_m mrs) (loc_of_shr_record mrs)) in *.
    assert (Hex : ex + Zpos p = E) by lia. rewrite Hex.
    exists m2. split; [lia|]. split; [exact Herr|].
    assert (Hk : 0 < 2 ^ Zpos p) by (apply Z.pow_pos_nonneg; lia).
    destruct (Z.le_gt_cases (-149) (d + ex - 24)) as [Hnorm | Hsub].
    + (* normal *)
      assert (Ekd : Zpos p = d - 24) by lia.
      assert (P1 : 2 ^ d = 16777216 * 2 ^ Zpos p).
      { replace d with (24 + Zpos p) by lia.
        rewrite Z.pow_add_r by lia. reflexivity. }
      assert (P2 : 2 ^ (d - 1) = 8388608 * 2 ^ Zpos p).
      { replace (d - 1) with (23 + Zpos p) by lia.
        rewrite Z.pow_add_r by lia. reflexivity. }
      assert (B1 : shr_m mrs < 16777216).
      { apply (mul_pow_lt _ _ (Zpos p)); lia. }
      assert (B2 : 8388608 < shr_m mrs + 1).
      { apply (mul_pow_lt _ _ (Zpos p)); lia. }
      right.
      destruct (Z.eq_dec m2 16777216) as [Hc | Hc].
      * rewrite Hc. cbn [Zdigits2 digits2_pos Pos.succ].
        replace (fexp prec emax (25 + E) - E) with 1
          by (unfold fexp, emin, prec, emax; lia).
        cbn [shr iter_pos shr_1 orb shr_m].
        exists 8388608%positive, (E + 1). split; [reflexivity|].
        right. split; [reflexivity | reflexivity].
      * destruct m2 as [|q|q] eqn:Eq; [lia| |lia].
        cbn [Zdigits2].
        assert (Hdq : Zpos (digits2_pos q) = 24).
        { apply digits2_unique. simpl. lia. }
        rewrite Hdq.
        rewrite (shr_nonpos _ _ (fexp prec emax (24 + E) - E))
          by (unfold fexp, emin, prec, emax; lia).
        cbn [shr_m]. exists q, E. split; [reflexivity|]. left. split; reflexivity.
    + (* subnormal *)
      assert (EE : E = -149) by lia.
      assert (B1 : shr_m mrs < 8388608).
      { destruct (Z.le_gt_cases d (Zpos p)) as [Hdp | Hdp].
        - assert (2 ^ d <= 2 ^ Zpos p) by (apply Z.pow_le_mono_r; lia).
          assert (shr_m mrs < 1) by (apply (mul_pow_lt _ _ (Zpos p)); lia).
          lia.
        - assert (P1 : 2 ^ d = 2 ^ (d - Zpos p) * 2 ^ Zpos p).
          { rewrite <- Z.pow_add_r by lia. f_equal. lia. }
          assert (2 ^ (d - Zpos p) <= 2 ^ 23) by (apply Z.pow_le_mono_r; lia).
          assert (shr_m mrs < 2 ^ (d - Zpos p))
            by (apply (mul_pow_lt _ _ (Zpos p)); lia).
          change (2 ^ 23) with 8388608 in *. lia. }
      destruct m2 as [|q|q] eqn:Eq; [left; split; [reflexivity|] | right | lia].
      * cbn [Zdigits2].
        rewrite (shr_nonpos _ _ (fexp prec emax (0 + E) - E))
          by (unfold fexp, emin, prec, emax; lia).
        reflexivity.
      * cbn [Zdigits2].
        assert (Hdq : Zpos (digits2_pos q) <= 24).
        { pose proof (digits2_bounds q) as [Qlo _].
          destruct (Z.le_gt_cases (Zpos (digits2_pos q)) 24) as [|Hbig];
            [assumption|].
          assert (2 ^ 24 <= 2 ^ (Zpos (digits2_pos q) - 1))
            by (apply Z.pow_le_mono_r; lia).
          change (2 ^ 24) with 16777216 in *. lia. }
        rewrite (shr_nonpos _ _ (fexp prec emax (Zpos (digits2_pos q) + E) - E))
          by (unfold fexp, emin, prec, emax; lia).
        cbn [shr_m]. exists q, E. split; [reflexivity|]. left. split; reflexivity.
Qed.

End Rounding.

Section RealRounding.

Import Float32.
Local Open Scope R_scope.

Lemma bpow_pos e : 0 < bpow e.
Proof. apply powerRZ_lt. lra. Qed.

Lemma bpow_add a b : bpow (a + b) = bpow a * bpow b.
Proof. apply powerRZ_add. lra. Qed.

Lemma bpow_IZR k : (0 <= k)%Z -> IZR (2 ^ k) = bpow k.
Proof.
  intros Hk. destruct k as [|p|p]; [reflexivity | | lia].
  unfold bpow. change (2 ^ Zpos p)%Z with (Z.pow_pos 2 p).
  apply Zpower_pos_powerRZ.
Qed.

Lemma bpow_ge_1 k : (0 <= k)%Z -> 1 <= bpow k.
Proof.
  intros Hk. rewrite <- (bpow_IZR k Hk). apply IZR_le.
  pose proof (Z.pow_pos_nonneg 2 k ltac:(lia) Hk). lia.
Qed.

Lemma bpow_le a b : (a <= b)%Z -> bpow a <= bpow b.
Proof.
  intros H. replace b with (a + (b - a))%Z by lia. rewrite bpow_add.
  pose proof (bpow_pos a). pose proof (bpow_ge_1 (b - a) ltac:(lia)). nra.
Qed.

Lemma bpow_succ a : bpow (a + 1) = 2 * bpow a.
Proof. rewrite bpow_add. unfold bpow at 2. simpl. lra. Qed.

Lemma bpow_pred a : bpow (a - 1) = bpow a / 2.
Proof.
  replace a with ((a - 1) + 1)%Z at 2 by lia. rewrite bpow_succ. lra.
Qed.


Lemma B2R_finite s m e :
  B2R (S754_finite s m e)
  = if s then - (IZR (Zpos m) * bpow e) else IZR (Zpos m) * bpow e.
Proof.
  destruct s; cbn [B2R cond_Zopp]; [|reflexivity].
  change (Z.opp (Zpos m)) with (- Zpos m)%Z. rewrite opp_IZR. ring.
Qed.

Lemma IZR_pos_ge_1 p : 1 <= IZR (Zpos p).
Proof. apply IZR_le. lia. Qed.

(** The value [binary_round_aux] returns for the positive number
    [mx * 2^ex]: an overflow needs a number of at least 2^103; otherwise
    the result is a float32 value [v] within [eps * x + eta] of [x], and
    within [eps * x] when [ex] is not below the smallest exponent. *)
Lemma binary_round_aux_real sx mx ex :
  let x := IZR (Zpos mx) * bpow ex in
  let r := binary_round_aux prec emax sx (Zpos mx) ex loc_Exact in
  (r = S754_infinity sx /\ bpow 103 <= x) \/
  (finite32 r /\
   exists v,
     B2R r = (if sx then - v else v) /\ 0 <= v /\
     - (eps * x + eta) <= v - x <= eps * x + eta /\
     ((-149 <= ex)%Z -> - (eps * x) <= v - x <= eps * x)).
Proof.
  cbv zeta.
  pose proof (bpow_pos ex) as HQ.
  pose proof (IZR_pos_ge_1 mx) as HX.
  pose proof (bpow_pos (-24)) as Hu. fold eps in Hu.
  pose proof (bpow_pos (-150)) as Heta. fold eta in Heta.
  assert (Hx : 0 < IZR (Zpos mx) * bpow ex) by nra.
  pose proof (digits2_bounds mx) as [Dlo _].
  set (d := Zpos (digits2_pos mx)) in *.
  assert (Hd : (0 < d)%Z) by (unfold d; lia).
  destruct (binary_round_aux_cases sx mx ex) as [[HE Hr] | [HE Hr]];
    fold d in HE, Hr;
    set (E := fexp prec emax (d + ex)) in *;
    assert (EE : E = Z.max (d + ex - 24) (-149)) by reflexivity.
  - rewrite Hr. change (emax - prec)%Z with 104%Z.
    destruct (Z.leb_spec ex 104) as [Hex | Hex].
    + right. split; [simpl; lia|].
      exists (IZR (Zpos mx) * bpow ex). split; [apply B2R_finite|].
      split; [lra|]. split; [nra|]. intros _. nra.
    + left. split; [reflexivity|].
      pose proof (bpow_le 103 ex ltac:(lia)). nra.
  - destruct Hr as (m2 & Hm2 & Herr & Hres).
    set (k := (E - ex)%Z) in *.
    assert (Hk : (0 < k)%Z) by (unfold k; lia).
    pose proof (bpow_pos k) as HP.
    assert (HPQ : bpow E = bpow k * bpow ex).
    { rewrite <- bpow_add. f_equal. unfold k. lia. }
    assert (HerrR : - bpow k <= IZR m2 * (2 * bpow k) - 2 * IZR (Zpos mx)
                    <= bpow k).
    { destruct Herr as [H1 H2]. apply IZR_le in H1, H2.
      rewrite opp_IZR in H1.
      rewrite minus_IZR, !mult_IZR, !bpow_IZR in H1, H2 by lia.
      rewrite bpow_succ in H1, H2. lra. }
    set (v := IZR m2 * bpow E).
    assert (Hv0 : 0 <= v).
    { unfold v. apply Rmult_le_pos; [apply IZR_le; lia|].
      left. apply bpow_pos. }
    assert (Hhalf : - (bpow E / 2) <= v - IZR (Zpos mx) * bpow ex
                    <= bpow E / 2).
    { unfold v. rewrite HPQ. split; nra. }
    assert (Hbound : bpow E / 2 <= eps * (IZR (Zpos mx) * bpow ex) + eta
                     /\ ((-149 <= ex)%Z ->
                         bpow E / 2 <= eps * (IZR (Zpos mx) * bpow ex))).
    { assert (Hnormal : (E = d + ex - 24)%Z ->
                        bpow E / 2 <= eps * (IZR (Zpos mx) * bpow ex)).
      { intros HEn. rewrite <- bpow_pred.
        replace (E - 1)%Z with (-24 + ((d - 1) + ex))%Z by lia.
        rewrite !bpow_add. fold eps.
        apply IZR_le in Dlo. rewrite bpow_IZR in Dlo by lia.
        apply Rmult_le_compat_l; [lra|].
        apply Rmult_le_compat_r; [lra | assumption]. }
      destruct (Z.le_gt_cases (-149) (d + ex - 24)) as [Hn | Hs].
      - assert (HEn : (E = d + ex - 24)%Z) by lia.
        specialize (Hnormal HEn). split; [lra | intros _; assumption].
      - assert (HEs : E = (-149)%Z) by lia. split.
        + rewrite <- bpow_pred, HEs. change (-149 - 1)%Z with (-150)%Z.
          fold eta. nra.
        + intros Hex. lia. }
    destruct Hbound as [Hb1 Hb2].
    assert (HEmin : (-149 <= E)%Z) by lia.
    destruct Hres as [[Hz Hr] | (m' & e' & Hr & Hme)].
    + right. rewrite Hr. split; [exact I|].
      exists v. split.
      * unfold v. rewrite Hz. simpl. destruct sx; lra.
      * split; [assumption|]. split; [lra|]. intros Hex. specialize (Hb2 Hex). lra.
    + assert (Hval : IZR (Zpos m') * bpow e' = v /\ (E <= e' <= E + 1)%Z).
      { unfold v. destruct Hme as [[Hm He] | [Hm He]]; subst e'.
        - rewrite Hm. split; [reflexivity | lia].
        - rewrite <- Hm, mult_IZR, bpow_succ. split; [lra | lia]. }
      destruct Hval as [Hval He'].
      rewrite Hr. change (emax - prec)%Z with 104%Z.
      destruct (Z.leb_spec e' 104) as [Hle | Hgt].
      * right. split; [simpl; lia|].
        exists v. split; [rewrite B2R_finite, Hval; reflexivity|].
        split; [assumption|]. split; [lra|].
        intros Hex. specialize (Hb2 Hex). lra.
      * left. split; [reflexivity|].
        assert (H1 : bpow E <= v).
        { rewrite <- Hval.
          pose proof (IZR_pos_ge_1 m'). pose proof (bpow_le E e' ltac:(lia)).
          pose proof (bpow_pos E). nra. }
        pose proof (bpow_le 104 E ltac:(lia)) as H2.
        assert (H3 : bpow 104 = 2 * bpow 103) by (apply (bpow_succ 103)).
        lra.
Qed.

End RealRounding.

Section Operations.

Import Float32.
Local Open Scope R_scope.

Lemma eps_pos : 0 < eps.
Proof. apply bpow_pos. Qed.

Lemma eta_pos : 0 < eta.
Proof. apply bpow_pos. Qed.

Lemma is_finite_fin x : finite32 x -> is_finite x = true.
Proof. destruct x; simpl; tauto. Qed.

(** ** Multiplication *)

Lemma mul_real x y B :
  is_finite x = true -> is_finite y = true ->
  - B <= B2R x * B2R y <= B -> B < bpow 103 ->
  finite32 (mul x y) /\
  - (eps * B + eta) <= B2R (mul x y) - B2R x * B2R y <= eps * B + eta.
Proof.
  intros Hx Hy HB Hlt.
  pose proof eps_pos as Hu. pose proof eta_pos as Heta.
  assert (HB0 : 0 <= B) by lra.
  assert (Hzero : forall s, finite32 (S754_zero s) /\
            - (eps * B + eta) <= B2R (S754_zero s) - 0 <= eps * B + eta).
  { intros s. split; [exact I|]. simpl. nra. }
  destruct x as [sx | sx | | sx mx ex]; try discriminate;
    destruct y as [sy | sy | | sy my ey]; try discriminate;
    try (cbn [mul SFmul]; cbn [B2R]; rewrite ?Rmult_0_l, ?Rmult_0_r;
         apply Hzero).
  unfold mul, SFmul.
  assert (Hprod : B2R (S754_finite sx mx ex) * B2R (S754_finite sy my ey)
                  = if xorb sx sy
                    then - (IZR (Zpos (mx * my)) * bpow (ex + ey))
                    else IZR (Zpos (mx * my)) * bpow (ex + ey)).
  { rewrite !B2R_finite, Pos2Z.inj_mul, mult_IZR, bpow_add.
    destruct sx, sy; cbn [xorb]; ring. }
  rewrite Hprod in *.
  destruct (binary_round_aux_real (xorb sx sy) (mx * my) (ex + ey))
    as [[_ Hbig] | (Hfin & v & Hv & Hv0 & Herr & _)].
  - exfalso. destruct (xorb sx sy); lra.
  - split; [exact Hfin|]. rewrite Hv.
    set (X := IZR (Zpos (mx * my)) * bpow (ex + ey)) in *.
    assert (HX : 0 <= X <= B).
    { assert (0 < X).
      { unfold X. pose proof (bpow_pos (ex + ey)).
        pose proof (IZR_pos_ge_1 (mx * my)). nra. }
      destruct (xorb sx sy); lra. }
    destruct (xorb sx sy); nra.
Qed.


(** ** Alignment of mantissas *)

Lemma iter_xO m d : Zpos (Pos.iter xO m d) = (Zpos m * 2 ^ Zpos d)%Z.
Proof.
  induction d as [|d IH] using Pos.peano_ind.
  - simpl. lia.
  - rewrite Pos.iter_succ, Pos2Z.inj_succ, Z.pow_succ_r by lia.
    change (Zpos (Pos.iter xO m d)~0) with (2 * Zpos (Pos.iter xO m d))%Z.
    rewrite IH. lia.
Qed.

Lemma shl_align_spec mx ex ex' :
  snd (shl_align mx ex ex') = Z.min ex ex' /\
  Zpos (fst (shl_align mx ex ex'))
  = (Zpos mx * 2 ^ (ex - snd (shl_align mx ex ex')))%Z.
Proof.
  unfold shl_align. destruct (ex' - ex)%Z as [|p|p] eqn:Hd; cbn [fst snd].
  - split; [lia|]. rewrite Z.sub_diag. simpl. lia.
  - split; [lia|]. rewrite Z.sub_diag. simpl. lia.
  - split; [lia|]. rewrite iter_xO. f_equal. f_equal. lia.
Qed.

Lemma shl_align_value mx ex ex' :
  IZR (Zpos (fst (shl_align mx ex ex'))) * bpow (snd (shl_align mx ex ex'))
  = IZR (Zpos mx) * bpow ex.
Proof.
  destruct (shl_align_spec mx ex ex') as [Hs Hf].
  rewrite Hf, mult_IZR, bpow_IZR by lia.
  rewrite Rmult_assoc, <- bpow_add. f_equal. f_equal. lia.
Qed.

(** ** Rounding of an integer multiple of a power of two *)

Lemma binary_round_real sx mx ex :
  (-149 <= ex)%Z ->
  let x := IZR (Zpos mx) * bpow ex in
  let r := binary_round prec emax sx mx ex in
  (r = S754_infinity sx /\ bpow 103 <= x) \/
  (finite32 r /\
   exists v,
     B2R r = (if sx then - v else v) /\ 0 <= v /\
     - (eps * x) <= v - x <= eps * x).
Proof.
  intros Hex. cbv zeta. unfold binary_round.
  set (E := fexp prec emax (Zpos (digits2_pos mx) + ex)).
  assert (HE : (-149 <= E)%Z) by (unfold E, fexp, emin, prec, emax; lia).
  destruct (shl_align_spec mx ex E) as [Hs _].
  pose proof (shl_align_value mx ex E) as Hval.
  destruct (shl_align mx ex E) as [mz ez]. cbn [fst snd] in *.
  rewrite <- Hval.
  destruct (binary_round_aux_real sx mz ez)
    as [Hinf | (Hfin & v & Hv & Hv0 & _ & Hrel)]; [left; exact Hinf|].
  right. split; [exact Hfin|]. exists v. split; [exact Hv|].
  split; [exact Hv0|]. apply Hrel. lia.
Qed.

Lemma binary_normalize_real m e B :
  (-149 <= e)%Z ->
  - B <= IZR m * bpow e <= B -> B < bpow 103 ->
  let r := binary_normalize prec emax m e false in
  finite32 r /\ - (eps * B) <= B2R r - IZR m * bpow e <= eps * B.
Proof.
  intros He HB Hlt. cbv zeta.
  pose proof eps_pos as Hu. pose proof (bpow_pos e) as Hq.
  destruct m as [|p|p]; cbn [binary_normalize].
  - split; [exact I|]. simpl. nra.
  - destruct (binary_round_real false p e He)
      as [[_ Hbig] | (Hfin & v & Hv & Hv0 & Hrel)]; [lra|].
    split; [exact Hfin|]. rewrite Hv.
    pose proof (IZR_pos_ge_1 p).
    assert (0 <= IZR (Zpos p) * bpow e <= B) by nra. nra.
  - destruct (binary_round_real true p e He)
      as [[_ Hbig] | (Hfin & v & Hv & Hv0 & Hrel)].
    + exfalso. change (Zneg p) with (- Zpos p)%Z in HB.
      rewrite opp_IZR in HB. lra.
    + split; [exact Hfin|]. rewrite Hv.
      change (Zneg p) with (- Zpos p)%Z in *. rewrite opp_IZR in *.
      pose proof (IZR_pos_ge_1 p).
      assert (0 <= IZR (Zpos p) * bpow e <= B) by nra. nra.
Qed.

(** ** Addition and subtraction *)

Lemma aligned_value s m e ez :
  (ez <= e)%Z ->
  IZR (cond_Zopp s (Zpos (fst (shl_align m e ez)))) * bpow ez
  = B2R (S754_finite s m e).
Proof.
  intros Hle. destruct (shl_align_spec m e ez) as [Hs Hf].
  pose proof (shl_align_value m e ez) as Hval.
  replace (snd (shl_align m e ez)) with ez in Hval by lia.
  rewrite B2R_finite.
  destruct s; cbn [cond_Zopp]; [|exact Hval].
  rewrite opp_IZR, <- Hval. ring.
Qed.

Lemma add_real x y B :
  finite32 x -> finite32 y ->
  - B <= B2R x + B2R y <= B -> B < bpow 103 ->
  finite32 (add x y) /\
  - (eps * B) <= B2R (add x y) - (B2R x + B2R y) <= eps * B.
Proof.
  intros Hx Hy HB Hlt.
  pose proof eps_pos as Hu.
  assert (HB0 : 0 <= B) by lra.
  destruct x as [sx | sx | | sx mx ex]; try contradiction;
    destruct y as [sy | sy | | sy my ey]; try contradiction.
  - split; [destruct sx, sy; exact I|].
    destruct sx, sy; simpl; nra.
  - cbn [add SFadd]. split; [exact Hy|]. cbn [B2R] in *. nra.
  - cbn [add SFadd]. split; [exact Hx|]. cbn [B2R] in *. nra.
  - unfold add, SFadd. cbn [finite32] in Hx, Hy.
    set (ez := Z.min ex ey).
    assert (Hsum :
      IZR (cond_Zopp sx (Zpos (fst (shl_align mx ex ez)))
           + cond_Zopp sy (Zpos (fst (shl_align my ey ez)))) * bpow ez
      = B2R (S754_finite sx mx ex) + B2R (S754_finite sy my ey)).
    { rewrite plus_IZR, Rmult_plus_distr_r.
      rewrite !aligned_value by (unfold ez; lia). reflexivity. }
    rewrite <- Hsum in *.
    apply binary_normalize_real; [unfold ez; lia | assumption | assumption].
Qed.

Lemma sub_real x y B :
  finite32 x -> finite32 y ->
  - B <= B2R x - B2R y <= B -> B < bpow 103 ->
  finite32 (sub x y) /\
  - (eps * B) <= B2R (sub x y) - (B2R x - B2R y) <= eps * B.
Proof.
  intros Hx Hy HB Hlt.
  pose proof eps_pos as Hu.
  assert (HB0 : 0 <= B) by lra.
  destruct x as [sx | sx | | sx mx ex]; try contradiction;
    destruct y as [sy | sy | | sy my ey]; try contradiction.
  - split; [destruct sx, sy; exact I|].
    destruct sx, sy; simpl; nra.
  - cbn [sub SFsub]. split; [exact Hy|].
    rewrite !B2R_finite. cbn [B2R]. destruct sy; cbn [negb]; nra.
  - cbn [sub SFsub]. split; [exact Hx|]. cbn [B2R] in *. nra.
  - unfold sub, SFsub. cbn [finite32] in Hx, Hy.
    set (ez := Z.min ex ey).
    assert (Hsum :
      IZR (cond_Zopp sx (Zpos (fst (shl_align mx ex ez)))
           - cond_Zopp sy (Zpos (fst (shl_align my ey ez)))) * bpow ez
      = B2R (S754_finite sx mx ex) - B2R (S754_finite sy my ey)).
    { rewrite minus_IZR, Rmult_minus_distr_r.
      rewrite !aligned_value by (unfold ez; lia). reflexivity. }
    rewrite <- Hsum in *.
    apply binary_normalize_real; [unfold ez; lia | assumption | assumption].
Qed.

End Operations.

Section Blend.

Import Float32.
Local Open Scope R_scope.

Lemma eps_small : eps <= 1 / 8.
Proof.
  unfold eps. pose proof (bpow_le (-24) (-3) ltac:(lia)) as H.
  assert (E3 : bpow 3 = 8) by (rewrite <- (bpow_IZR 3) by lia; reflexivity).
  pose proof (bpow_add (-3) 3) as E. change (-3 + 3)%Z with 0%Z in E.
  change (bpow 0) with 1 in E. rewrite E3 in E. lra.
Qed.

Lemma eta_small : eta <= 1.
Proof.
  unfold eta. pose proof (bpow_le (-150) 0 ltac:(lia)) as H.
  assert (E : bpow 0 = 1) by reflexivity. lra.
Qed.

Lemma bpow_100_103 : 8 * bpow 100 = bpow 103.
Proof.
  replace 103%Z with (100 + 3)%Z by lia. rewrite bpow_add.
  assert (E : bpow 3 = 8) by (rewrite <- (bpow_IZR 3) by lia; reflexivity).
  rewrite E. lra.
Qed.

Lemma B2R_one : B2R one = 1.
Proof.
  unfold one. rewrite B2R_finite.
  change (IZR (Zpos 8388608)) with (IZR (2 ^ 23)).
  rewrite bpow_IZR by lia. rewrite <- bpow_add. reflexivity.
Qed.

Lemma binary_round_aux_sign sx mx ex :
  let r := binary_round_aux prec emax sx (Zpos mx) ex loc_Exact in
  r = S754_zero sx \/ r = S754_infinity sx \/
  exists m e, r = S754_finite sx m e.
Proof.
  cbv zeta.
  destruct (binary_round_aux_cases sx mx ex)
    as [[_ ->] | [_ (m2 & _ & _ & [[_ ->] | (m' & e' & -> & _)])]].
  - destruct (ex <=? emax - prec)%Z; eauto.
  - now left.
  - destruct (e' <=? emax - prec)%Z; eauto.
Qed.

(** The transmittance computed for a nonnegative depth and a nonpositive
    [-beta] is a float32 value between 0 and 1. *)
Lemma exp_unit approx dv c :
  exp_bounded approx ->
  nonneg_finite dv = true -> nonpos_finite c = true ->
  let t := Float32.exp approx (mul dv c) in
  finite32 t /\ 0 <= B2R t <= 1.
Proof.
  intros Hexp Hd Hc. cbv zeta.
  assert (Hone : finite32 one /\ 0 <= B2R one <= 1).
  { split; [simpl; lia|]. rewrite B2R_one. lra. }
  destruct dv as [sd | sd | | sd md ed]; try discriminate;
    destruct c as [sc | sc | | sc mc ec]; try discriminate;
    try exact Hone.
  simpl in Hd, Hc. destruct sd; [discriminate|]. subst sc.
  unfold mul, SFmul. cbn [xorb].
  destruct (binary_round_aux_sign true (md * mc) (ed + ec))
    as [-> | [-> | (m & e & ->)]].
  - exact Hone.
  - simpl. split; [exact I | lra].
  - cbn [Float32.exp]. apply Hexp.
Qed.

(** The four rounding errors add up to at most [5 * eps * M + 3 * eta]. *)
Lemma blend_error (M T I Lr a s b y : R) :
  0 <= T <= 1 -> - M <= I <= M -> - M <= Lr <= M ->
  - (eps * M + eta) <= a - T * I <= eps * M + eta ->
  - (eps * 1) <= s - (1 - T) <= eps * 1 ->
  - (eps * ((1 + eps) * M) + eta) <= b - s * Lr <= eps * ((1 + eps) * M) + eta ->
  - (eps * ((1 + 4 * eps) * M + 2 * eta)) <= y - (a + b)
     <= eps * ((1 + 4 * eps) * M + 2 * eta) ->
  - (5 * eps * M + 3 * eta) <= y - (T * I + (1 - T) * Lr)
  <= 5 * eps * M + 3 * eta.
Proof.
  intros HT HI HL Ha Hs Hb Hy.
  pose proof eps_pos as Hu. pose proof eps_small as Hu8.
  pose proof eta_pos as Heta.
  assert (HM : 0 <= M) by lra.
  set (C := T * I + (1 - T) * Lr) in *.
  assert (Hd : - (eps * M) <= (s - (1 - T)) * Lr <= eps * M).
  { set (ds := s - (1 - T)) in *. split; nra. }
  assert (Huu : eps * eps <= eps / 8) by nra.
  assert (HuM : 0 <= eps * M) by nra.
  assert (HuuM : eps * eps * M <= eps * M / 8) by nra.
  assert (Hue : eps * eta <= eta / 8) by nra.
  assert (Hsum : y - C = (y - (a + b)) + (a - T * I) + (b - s * Lr)
                         + (s - (1 - T)) * Lr) by (unfold C; ring).
  assert (E1 : eps * ((1 + 4 * eps) * M + 2 * eta)
               = eps * M + 4 * (eps * eps * M) + 2 * (eps * eta)) by ring.
  assert (E2 : eps * ((1 + eps) * M) = eps * M + eps * eps * M) by ring.
  rewrite E1 in Hy. rewrite E2 in Hb.
  split; lra.
Qed.

(** The blend computed on float32 values is finite and within
    [5 * eps * M + 3 * eta] of the blend of the numbers they stand for. *)
Lemma blend_real t im L M :
  finite32 t -> 0 <= B2R t <= 1 -> finite32 im -> finite32 L ->
  - M <= B2R im <= M -> - M <= B2R L <= M -> M <= bpow 100 ->
  let y := add (mul t im) (mul (sub one t) L) in
  finite32 y /\
  - (5 * eps * M + 3 * eta)
  <= B2R y - (B2R t * B2R im + (1 - B2R t) * B2R L)
  <= 5 * eps * M + 3 * eta.
Proof.
  intros Ht HT Him HL HI HLr HM. cbv zeta.
  pose proof eps_pos as Hu. pose proof eps_small as Hu8.
  pose proof eta_pos as Heta. pose proof eta_small as Heta1.
  pose proof bpow_100_103 as H103. pose proof (bpow_pos 100) as H100.
  assert (HM0 : 0 <= M) by lra.
  assert (Hone : finite32 one) by (simpl; lia).
  destruct (mul_real t im M (is_finite_fin _ Ht) (is_finite_fin _ Him))
    as [Hfa Ha]; [nra | lra |].
  destruct (sub_real one t 1 Hone Ht) as [Hfs Hs].
  { rewrite B2R_one. lra. }
  { pose proof (bpow_ge_1 103 ltac:(lia)). assert (bpow 100 >= 1).
    { pose proof (bpow_ge_1 100 ltac:(lia)). lra. } lra. }
  rewrite B2R_one in Hs.
  assert (HS : - (1 + eps) <= B2R (sub one t) <= 1 + eps) by lra.
  destruct (mul_real (sub one t) L ((1 + eps) * M)
              (is_finite_fin _ Hfs) (is_finite_fin _ HL)) as [Hfb Hb].
  { set (S := B2R (sub one t)) in *. split; nra. }
  { nra. }
  assert (HuM : 0 <= eps * M) by nra.
  assert (HuuM : eps * eps * M <= eps * M / 8) by nra.
  destruct (add_real (mul t im) (mul (sub one t) L)
              ((1 + 4 * eps) * M + 2 * eta) Hfa Hfb) as [Hfy Hy].
  { assert (Hd : - (eps * M) <= (B2R (sub one t) - (1 - B2R t)) * B2R L
                 <= eps * M).
    { set (ds := B2R (sub one t) - (1 - B2R t)) in *. split; nra. }
    assert (HTI : - M <= B2R t * B2R im + (1 - B2R t) * B2R L <= M).
    { pose proof (convex_between (B2R t) (B2R im) (B2R L) HT) as HC.
      unfold Rmin, Rmax in HC. destruct (Rle_dec (B2R im) (B2R L)); lra. }
    assert (E2 : eps * ((1 + eps) * M) = eps * M + eps * eps * M) by ring.
    rewrite E2 in Hb.
    assert (Hsum : B2R (mul t im) + B2R (mul (sub one t) L)
                   = (B2R t * B2R im + (1 - B2R t) * B2R L)
                     + (B2R (mul t im) - B2R t * B2R im)
                     + (B2R (mul (sub one t) L) - B2R (sub one t) * B2R L)
                     + (B2R (sub one t) - (1 - B2R t)) * B2R L) by ring.
    rewrite Hsum. split; lra. }
  { pose proof (bpow_ge_1 100 ltac:(lia)).
    assert (eps * M <= M / 8) by nra. lra. }
  split; [exact Hfy|].
  apply (blend_error M (B2R t) (B2R im) (B2R L) (B2R (mul t im))
           (B2R (sub one t)) (B2R (mul (sub one t) L))); assumption.
Qed.

(** Values that are equal ([==]) stand for the same number. *)
Lemma eqb_B2R x y : Float32.eqb x y = true -> B2R x = B2R y.
Proof.
  unfold Float32.eqb, SFeqb, SFcompare.
  destruct x as [sx | sx | | sx mx ex], y as [sy | sy | | sy my ey];
    intros H; try reflexivity; try discriminate H;
    try (destruct sx; discriminate H); try (destruct sy; discriminate H).
  destruct sx, sy; try discriminate H;
    destruct (Z.compare_spec ex ey) as [Hee | |]; try discriminate H;
    destruct (Pos.compare_cont Eq mx my) eqn:Hc; try discriminate H;
    apply (Pos.compare_eq mx my) in Hc; subst; reflexivity.
Qed.

End Blend.

(* ================================================================== *)
(** * [Haze.A] on float32 tensors *)
(* ================================================================== *)

Section Haze32Properties.

Import Haze32.


Variable approx : Float32.float -> Float32.float.
Variable self : Haze.

(** What [A] computes on a latent state, entry by entry. *)
Lemma A32_entries (im d : tensor) (L : operand) :
  latent_state (im, d, L) ->
  exists y,
    A approx self (im, d, L) = Ok y /\
    shape y = shape im /\
    forall idx, valid_index (shape im) idx ->
      entry y idx =
        Float32.add
          (Float32.mul (transmittance approx self d idx) (entry im idx))
          (Float32.mul
             (Float32.sub (Float32.of_double (Float64.round_int 1))
                          (transmittance approx self d idx))
             (operand_entry L idx)).
Proof.
  intros [Hd HL]. unfold A, tensor_mul, tensor_add, elementwise; simpl.
  pose proof Hd as Hd'. apply broadcastable_fits in Hd'.
  rewrite Hd. simpl.
  destruct L as [r | l]; simpl.
  - rewrite broadcast_shapes_comm, Hd. simpl.
    eexists; split; [reflexivity|]. split; [reflexivity|].
    intros idx Hidx. simpl. unfold transmittance.
    rewrite !(broadcast_index_id _ _ Hidx).
    reflexivity.
  - pose proof HL as HL'. apply broadcastable_fits in HL'.
    destruct (fits_join _ _ _ Hd' HL') as (u & Hu & Hus & Hdu & Hlu).
    unfold tensor_mul, elementwise; simpl.
    unfold broadcast_shapes at 1. rewrite Hu. simpl.
    assert (Hfu : fits (rev (rev u)) (rev (shape im)))
      by now rewrite rev_involutive.
    rewrite broadcast_shapes_comm, (broadcast_shapes_fits _ _ Hfu). simpl.
    eexists; split; [reflexivity|]. split; [reflexivity|].
    intros idx Hidx. simpl. unfold transmittance.
    rewrite !(broadcast_index_id _ _ Hidx).
    assert (Hdu' : fits (rev (shape d)) (rev (rev u)))
      by now rewrite rev_involutive.
    assert (Hlu' : fits (rev (shape l)) (rev (rev u)))
      by now rewrite rev_involutive.
    rewrite (broadcast_index_compose _ _ idx Hdu').
    rewrite (broadcast_index_compose _ _ idx Hlu').
    reflexivity.
Qed.


Lemma finite_operand_entry (L : operand) (idx : list nat) :
  finite_operand L -> Float32.is_finite (operand_entry L idx) = true.
Proof. destruct L as [r | a]; simpl; auto. Qed.

Lemma valid_operand_entry (L : operand) (idx : list nat) :
  well_formed_operand L -> Float32.valid (operand_entry L idx) = true.
Proof. destruct L as [r | a]; simpl; auto. Qed.

(** With [beta = 0] and a finite depth the transmittance is 1.0. *)
Lemma transmittance_beta_zero (d : tensor) (idx : list nat) :
  (exists s, beta self = S754_zero s) -> finite_tensor d ->
  transmittance approx self d idx = Float32.one.
Proof.
  intros [s Hb] Hd. unfold transmittance. rewrite Hb. cbn [SFopp Float32.of_double].
  destruct (mul_finite_zero (entry d (broadcast_index (shape d) idx)) (negb s))
    as [s' ->]; [apply Hd | reflexivity].
Qed.

(** C8, amended. With [beta = 0], a finite depth and a finite light, [A]
    returns a tensor of the shape of the image whose entries are equal
    ([==]) to those of the image; where the image holds NaN, so does the
    result. *)
Theorem Haze_A_beta_zero_finite (im d : tensor) (L : operand) :
  latent_state (im, d, L) ->
  (exists s, beta self = S754_zero s) ->
  well_formed im -> finite_tensor d -> finite_operand L ->
  exists y,
    A approx self (im, d, L) = Ok y /\
    shape y = shape im /\
    forall idx, valid_index (shape im) idx ->
      if Float32.is_nan (entry im idx)
      then Float32.is_nan (entry y idx) = true
      else Float32.eqb (entry y idx) (entry im idx) = true.
Proof.
  intros Hx Hb Him Hd HL.
  destruct (A32_entries im d L Hx) as (y & Hy & Hs & He).
  exists y. split; [exact Hy|]. split; [exact Hs|].
  intros idx Hidx. rewrite (He idx Hidx).
  rewrite (transmittance_beta_zero d idx Hb Hd).
  rewrite of_double_one, (mul_one_l _ (Him idx)).
  change (Float32.sub Float32.one Float32.one) with (S754_zero false).
  destruct (mul_zero_finite (operand_entry L idx) false
              (finite_operand_entry L idx HL)) as [s' ->].
  destruct (Float32.is_nan (entry im idx)) eqn:Hnan.
  - destruct (entry im idx); try discriminate. reflexivity.
  - now apply add_zero_r.
Qed.

(** X5. At a pixel of infinite depth, with a [beta] whose float32 value is
    positive, a finite image and a light that is not NaN, the observation
    is equal ([==]) to the light. *)
Theorem Haze_A_infinite_depth (im d : tensor) (L : operand) (idx : list nat) :
  latent_state (im, d, L) ->
  Float32.ltb (Float32.of_double (SFopp (beta self))) (S754_zero false) = true ->
  finite_tensor im -> well_formed_operand L ->
  valid_index (shape im) idx ->
  entry d (broadcast_index (shape d) idx) = S754_infinity false ->
  Float32.is_nan (operand_entry L idx) = false ->
  exists y,
    A approx self (im, d, L) = Ok y /\
    Float32.eqb (entry y idx) (operand_entry L idx) = true.
Proof.
  intros Hx Hb Him HL Hidx Hd Hnan.
  destruct (A32_entries im d L Hx) as (y & Hy & Hs & He).
  exists y. split; [exact Hy|].
  rewrite (He idx Hidx).
  assert (Ht : transmittance approx self d idx = S754_zero false).
  { unfold transmittance. rewrite Hd.
    destruct (Float32.of_double (SFopp (beta self))) as [s | s | | s m e];
      try discriminate.
    - destruct s; [reflexivity | discriminate].
    - destruct s; [reflexivity | discriminate]. }
  rewrite Ht, of_double_one.
  change (Float32.sub Float32.one (S754_zero false)) with Float32.one.
  rewrite (mul_one_l _ (valid_operand_entry L idx HL)).
  destruct (mul_zero_finite (entry im idx) false (Him idx)) as [s' ->].
  now apply add_zero_l.
Qed.

End Haze32Properties.

Section Haze32Rounding.

Import Float32 Haze32.
Local Open Scope R_scope.

Variable approx : Float32.float -> Float32.float.
Variable self : Haze.

(** On finite entries of magnitude at most 2^100, with a nonnegative
    finite depth and [beta], every entry of [A(x)] is finite and within
    [5 * eps * M + 3 * eta] of the blend of the entries of the image and
    of the light by the float32 transmittance, which lies in [0, 1]. *)
Lemma A32_rounded (im d : tensor) (L : operand) :
  latent_state (im, d, L) ->
  exp_bounded approx ->
  nonpos_finite (Float32.of_double (SFopp (beta self))) = true ->
  (forall idx, nonneg_finite (entry d idx) = true) ->
  (forall idx, finite32 (entry im idx)
               /\ Rabs (B2R (entry im idx)) <= bpow 100) ->
  (forall idx, finite32 (operand_entry L idx)
               /\ Rabs (B2R (operand_entry L idx)) <= bpow 100) ->
  exists y,
    A approx self (im, d, L) = Ok y /\
    forall idx, valid_index (shape im) idx ->
      let t := B2R (transmittance approx self d idx) in
      let i := B2R (entry im idx) in
      let l := B2R (operand_entry L idx) in
      let E := 5 * eps * Rmax (Rabs i) (Rabs l) + 3 * eta in
      finite32 (entry y idx) /\ 0 <= t <= 1 /\
      - E <= B2R (entry y idx) - (t * i + (1 - t) * l) <= E.
Proof.
  intros Hx Hexp Hb Hd Him HL.
  destruct (A32_entries approx self im d L Hx) as (y & Hy & _ & He).
  exists y. split; [exact Hy|].
  intros idx Hidx. cbv zeta. rewrite (He idx Hidx).
  rewrite of_double_one.
  destruct (exp_unit approx (entry d (broadcast_index (shape d) idx))
              (Float32.of_double (SFopp (beta self))) Hexp (Hd _) Hb)
    as [Ht HT].
  fold (transmittance approx self d idx) in Ht, HT.
  destruct (Him idx) as [Hfi Hi]. destruct (HL idx) as [Hfl Hl].
  set (M := Rmax (Rabs (B2R (entry im idx)))
                 (Rabs (B2R (operand_entry L idx)))).
  assert (HMi : Rabs (B2R (entry im idx)) <= M) by apply Rmax_l.
  assert (HMl : Rabs (B2R (operand_entry L idx)) <= M) by apply Rmax_r.
  assert (HM : M <= bpow 100) by (unfold M; apply Rmax_lub; assumption).
  destruct (blend_real (transmittance approx self d idx) (entry im idx)
              (operand_entry L idx) M Ht HT Hfi Hfl) as [Hfy Hy'].
  - revert HMi. unfold Rabs. destruct (Rcase_abs _); lra.
  - revert HMl. unfold Rabs. destruct (Rcase_abs _); lra.
  - exact HM.
  - split; [exact Hfy|]. split; [exact HT | exact Hy'].
Qed.

(** C3, amended. On float32 tensors, with a finite depth that is
    nonnegative at every pixel, a [beta] whose float32 value is finite and
    nonnegative, finite entries of [image] and [atmospheric_light] of
    magnitude at most 2^100, and an exponential that returns values
    between 0 and 1 at negative arguments, every entry of [A(x)] is finite
    and lies between the entry of [image] and the entry of
    [atmospheric_light] up to the rounding of the four operations: it is
    at least their minimum minus [E] and at most their maximum plus [E],
    [E = 5 * 2^-24 * max(|image|, |light|) + 3 * 2^-150]. *)
Theorem Haze_A_between_rounded (im d : tensor) (L : operand) :
  latent_state (im, d, L) ->
  exp_bounded approx ->
  nonpos_finite (Float32.of_double (SFopp (beta self))) = true ->
  (forall idx, nonneg_finite (entry d idx) = true) ->
  (forall idx, finite32 (entry im idx)
               /\ Rabs (B2R (entry im idx)) <= bpow 100) ->
  (forall idx, finite32 (operand_entry L idx)
               /\ Rabs (B2R (operand_entry L idx)) <= bpow 100) ->
  exists y,
    A approx self (im, d, L) = Ok y /\
    forall idx, valid_index (shape im) idx ->
      let i := B2R (entry im idx) in
      let l := B2R (operand_entry L idx) in
      let E := 5 * eps * Rmax (Rabs i) (Rabs l) + 3 * eta in
      finite32 (entry y idx) /\
      Rmin i l - E <= B2R (entry y idx) <= Rmax i l + E.
Proof.
  intros Hx Hexp Hb Hd Him HL.
  destruct (A32_rounded im d L Hx Hexp Hb Hd Him HL) as (y & Hy & He).
  exists y. split; [exact Hy|].
  intros idx Hidx. cbv zeta.
  destruct (He idx Hidx) as (Hfy & HT & Herr). cbv zeta in Herr.
  split; [exact Hfy|].
  pose proof (convex_between (B2R (transmittance approx self d idx))
                (B2R (entry im idx)) (B2R (operand_entry L idx)) HT) as HC.
  lra.
Qed.

(** X2. On float32 tensors, under the conditions of the rounded
    betweenness, wherever the image is equal ([==]) to the atmospheric
    light the observation is the image up to rounding: within
    [5 * 2^-24 * |image| + 3 * 2^-150] of it, whatever the depth is. *)
Theorem Haze_A_where_image_is_light (im d : tensor) (L : operand)
    (idx : list nat) :
  latent_state (im, d, L) ->
  exp_bounded approx ->
  nonpos_finite (Float32.of_double (SFopp (beta self))) = true ->
  (forall idx, nonneg_finite (entry d idx) = true) ->
  (forall idx, finite32 (entry im idx)
               /\ Rabs (B2R (entry im idx)) <= bpow 100) ->
  (forall idx, finite32 (operand_entry L idx)
               /\ Rabs (B2R (operand_entry L idx)) <= bpow 100) ->
  valid_index (shape im) idx ->
  Float32.eqb (entry im idx) (operand_entry L idx) = true ->
  exists y,
    A approx self (im, d, L) = Ok y /\
    let i := B2R (entry im idx) in
    let E := 5 * eps * Rabs i + 3 * eta in
    - E <= B2R (entry y idx) - i <= E.
Proof.
  intros Hx Hexp Hb Hd Him HL Hidx Heq.
  destruct (A32_rounded im d L Hx Hexp Hb Hd Him HL) as (y & Hy & He).
  exists y. split; [exact Hy|]. cbv zeta.
  destruct (He idx Hidx) as (_ & _ & Herr). cbv zeta in Herr.
  rewrite <- (eqb_B2R _ _ Heq) in Herr.
  unfold Rmax in Herr. destruct (Rle_dec _ _); lra.
Qed.


End Haze32Rounding.

Section Haze32Examples.

Import Haze32.

Lemma state32_latent : latent_state state32.
Proof. split; [reflexivity | exact I]. Qed.

Lemma state32_inf_light_latent : latent_state state32_inf_light.
Proof. split; [reflexivity | exact I]. Qed.

Lemma state32_inf_depth_latent : latent_state state32_inf_depth.
Proof. split; [reflexivity | exact I]. Qed.

Lemma state_tenth_latent : latent_state state_tenth.
Proof. split; [reflexivity | exact I]. Qed.

(** C8 as stated fails: with [beta = 0] and the light [float('inf')] the
    product [(1 - t) * A] is 0 * inf, and every entry of the result is
    NaN where the image holds 0.5. *)
Lemma Haze_A_beta_zero_infinite_light :
  latent_state state32_inf_light /\
  forall approx, exists y,
    A approx (init (Some py_zero)) state32_inf_light = Ok y /\
    forall idx,
      Float32.is_nan (entry y idx) = true /\
      Float32.eqb (entry y idx) (entry image32 idx) = false.
Proof.
  split; [exact state32_inf_light_latent|].
  intros approx. eexists. split; [reflexivity|].
  intros idx. split; reflexivity.
Qed.

Lemma Haze_A_beta_zero_finite_witness :
  latent_state state32 /\
  forall approx, exists y,
    A approx (init (Some py_zero)) state32 = Ok y /\
    shape y = shape image32 /\
    forall idx, valid_index (shape image32) idx ->
      if Float32.is_nan (entry image32 idx)
      then Float32.is_nan (entry y idx) = true
      else Float32.eqb (entry y idx) (entry image32 idx) = true.
Proof.
  split; [exact state32_latent|]. intros approx.
  apply (Haze_A_beta_zero_finite approx (init (Some py_zero))
           image32 depth32 (Scalar py_one) state32_latent).
  - exists false. reflexivity.
  - intros idx. reflexivity.
  - intros idx. reflexivity.
  - reflexivity.
Defined.

(** C3 as stated fails on float32 tensors. With image = light = 0.1,
    depth 2 and the default [beta], an exponential that returns the
    float32 nearest to exp(-0.2) gives the float32 next above 0.1 at
    every pixel; with [beta = 0] and an infinite depth the product
    [-beta * d] is NaN and so is the result. *)
Lemma Haze_A_float32_not_between :
  (forall approx, approx minus_fifth32 = exp_minus_fifth32 ->
     exists y,
       A approx (init None) state_tenth = Ok y /\
       forall idx, valid_index (shape image_tenth) idx ->
         entry y idx = above_tenth32 /\
         between (entry image_tenth idx)
                 (operand_entry (Scalar (Float64.literal 1 10)) idx)
                 (entry y idx) = false) /\
  (forall approx, exists y,
     A approx (init (Some py_zero)) state32_inf_depth = Ok y /\
     forall idx,
       between (entry image32 idx) (operand_entry (Scalar py_one) idx)
               (entry y idx) = false).
Proof.
  split.
  - intros approx Happrox.
    destruct (A32_entries approx (init None) image_tenth depth32
                (Scalar (Float64.literal 1 10)) state_tenth_latent)
      as (y & Hy & _ & He).
    exists y. split; [exact Hy|].
    intros idx Hidx. rewrite (He idx Hidx).
    assert (Ht : transmittance approx (init None) depth32 idx
                 = exp_minus_fifth32).
    { unfold transmittance. cbn [entry depth32].
      replace (Float32.mul two32
                 (Float32.of_double (SFopp (beta (init None)))))
        with minus_fifth32 by (vm_compute; reflexivity).
      exact Happrox. }
    rewrite Ht. split; vm_compute; reflexivity.
  - intros approx. eexists. split; [reflexivity|].
    intros idx. reflexivity.
Qed.

Lemma Haze_A_infinite_depth_witness :
  latent_state state32_inf_depth /\
  forall approx, exists y,
    A approx (init None) state32_inf_depth = Ok y /\
    Float32.eqb (entry y [0; 0; 0; 0]%nat)
                (operand_entry (Scalar py_one) [0; 0; 0; 0]%nat) = true.
Proof.
  split; [exact state32_inf_depth_latent|]. intros approx.
  apply (Haze_A_infinite_depth approx (init None) image32 depth_inf
           (Scalar py_one) [0; 0; 0; 0]%nat state32_inf_depth_latent).
  - vm_compute. reflexivity.
  - intros idx. reflexivity.
  - vm_compute. reflexivity.
  - repeat constructor.
  - reflexivity.
  - vm_compute. reflexivity.
Defined.

Lemma finite32_unit m e :
  (e <= -24)%Z -> (-149 <= e)%Z -> (Zpos m <= 16777216)%Z ->
  Float32.finite32 (S754_finite false m e) /\
  (0 <= Float32.B2R (S754_finite false m e) <= 1)%R.
Proof.
  intros He1 He2 Hm. split; [exact He2|]. rewrite B2R_finite.
  pose proof (IZR_pos_ge_1 m) as H1. pose proof (bpow_pos e) as H2.
  assert (H3 : (IZR (Zpos m) <= Float32.bpow 24)%R).
  { rewrite <- bpow_IZR by lia. apply IZR_le. exact Hm. }
  pose proof (bpow_le e (-24) He1) as H4.
  pose proof (bpow_add 24 (-24)) as H5. change (24 + -24)%Z with 0%Z in H5.
  change (Float32.bpow 0) with 1%R in H5.
  pose proof (bpow_pos (-24)) as H6. pose proof (bpow_pos 24) as H7.
  split; [nra|].
  apply Rle_trans with (Float32.bpow 24 * Float32.bpow (-24))%R; [|lra].
  apply Rmult_le_compat; lra.
Qed.

Lemma unit_magnitude x :
  (0 <= Float32.B2R x <= 1)%R -> (Rabs (Float32.B2R x) <= Float32.bpow 100)%R.
Proof.
  intros Hx. pose proof (bpow_ge_1 100 ltac:(lia)).
  unfold Rabs. destruct (Rcase_abs _); lra.
Qed.

Lemma exp_at_bounded x v :
  Float32.finite32 v -> (0 <= Float32.B2R v <= 1)%R ->
  Float32.exp_bounded (Float32.exp_at x v).
Proof.
  intros Hv Hr m e. unfold Float32.exp_at.
  destruct (Float32.eqb (S754_finite true m e) x); [split; assumption|].
  split; [exact I|]. simpl. lra.
Qed.

(** The state of the rounding example, image = light = 0.1, depth 2 and
    the default [beta], with the exponential of -0.2, meets the
    conditions of the rounded betweenness. *)
Lemma exp_minus_fifth_bounded :
  Float32.exp_bounded (Float32.exp_at minus_fifth32 exp_minus_fifth32).
Proof. apply exp_at_bounded; apply finite32_unit; lia. Qed.

Lemma image_tenth_small idx :
  Float32.finite32 (entry image_tenth idx) /\
  (Rabs (Float32.B2R (entry image_tenth idx)) <= Float32.bpow 100)%R.
Proof.
  cbn [entry image_tenth].
  destruct (finite32_unit 13421773 (-27)) as [Hf Hr]; try lia.
  split; [exact Hf | now apply unit_magnitude].
Qed.

Lemma light_tenth_small idx :
  Float32.finite32 (operand_entry (Scalar (Float64.literal 1 10)) idx) /\
  (Rabs (Float32.B2R (operand_entry (Scalar (Float64.literal 1 10)) idx))
   <= Float32.bpow 100)%R.
Proof.
  cbn [operand_entry].
  replace (Float32.of_double (Float64.literal 1 10)) with tenth32
    by (vm_compute; reflexivity).
  destruct (finite32_unit 13421773 (-27)) as [Hf Hr]; try lia.
  split; [exact Hf | now apply unit_magnitude].
Qed.

Lemma Haze_A_between_rounded_witness :
  latent_state state_tenth /\
  exists y,
    A (Float32.exp_at minus_fifth32 exp_minus_fifth32) (init None) state_tenth
    = Ok y /\
    forall idx, valid_index (shape image_tenth) idx ->
      let i := Float32.B2R (entry image_tenth idx) in
      let l := Float32.B2R
                 (operand_entry (Scalar (Float64.literal 1 10)) idx) in
      let E := (5 * Float32.eps * Rmax (Rabs i) (Rabs l)
                + 3 * Float32.eta)%R in
      Float32.finite32 (entry y idx) /\
      (Rmin i l - E <= Float32.B2R (entry y idx) <= Rmax i l + E)%R.
Proof.
  split; [exact state_tenth_latent|].
  apply (Haze_A_between_rounded
           (Float32.exp_at minus_fifth32 exp_minus_fifth32) (init None)
           image_tenth depth32 (Scalar (Float64.literal 1 10))
           state_tenth_latent).
  - exact exp_minus_fifth_bounded.
  - vm_compute. reflexivity.
  - intros idx. reflexivity.
  - exact image_tenth_small.
  - exact light_tenth_small.
Defined.

Lemma Haze_A_where_image_is_light_witness :
  latent_state state_tenth /\
  Float32.eqb (entry image_tenth [0; 0; 0; 0]%nat)
    (operand_entry (Scalar (Float64.literal 1 10)) [0; 0; 0; 0]%nat) = true /\
  exists y,
    A (Float32.exp_at minus_fifth32 exp_minus_fifth32) (init None) state_tenth
    = Ok y /\
    let i := Float32.B2R (entry image_tenth [0; 0; 0; 0]%nat) in
    let E := (5 * Float32.eps * Rabs i + 3 * Float32.eta)%R in
    (- E <= Float32.B2R (entry y [0; 0; 0; 0]%nat) - i <= E)%R.
Proof.
  split; [exact state_tenth_latent|].
  split; [vm_compute; reflexivity|].
  apply (Haze_A_where_image_is_light
           (Float32.exp_at minus_fifth32 exp_minus_fifth32) (init None)
           image_tenth depth32 (Scalar (Float64.literal 1 10))
           [0; 0; 0; 0]%nat state_tenth_latent).
  - exact exp_minus_fifth_bounded.
  - vm_compute. reflexivity.
  - intros idx. reflexivity.
  - exact image_tenth_small.
  - exact light_tenth_small.
  - repeat constructor.
  - vm_compute. reflexivity.
Defined.


End Haze32Examples.


(* ================================================================== *)
(** * Properties of the tensor operations *)
(* ================================================================== *)

Section TorchProperties.

Import Torch.
Local Open Scope Z_scope.

Lemma mapM_ok {A B : Type} (f : A -> result B) l l' :
  mapM f l = Ok l' <-> Forall2 (fun a b => f a = Ok b) l l'.
Proof.
  revert l'; induction l as [|a l IH]; intros l'; simpl.
  - split; intros H; [injection H as <-; constructor | now inversion H].
  - destruct (f a) as [b|e] eqn:Hfa; simpl.
    + destruct (mapM f l) as [bs|e] eqn:Hm; simpl.
      * split; intros H.
        -- injection H as <-. constructor; [assumption | now apply IH].
        -- inversion H as [|a0 b0 l0 bs0 Hab Hrest]; subst.
           apply IH in Hrest. congruence.
      * split; intros H; [discriminate|].
        inversion H as [|a0 b0 l0 bs0 Hab Hrest]; subst.
        apply IH in Hrest. discriminate.
    + split; intros H; [discriminate|].
      inversion H as [|a0 b0 l0 bs0 Hab Hrest]; subst. congruence.
Qed.

Lemma mapM_total {A B : Type} (f : A -> result B) l :
  Forall (fun a => exists b, f a = Ok b) l -> exists l', mapM f l = Ok l'.
Proof.
  induction 1 as [|a l [b Hb] _ [bs Hbs]]; simpl.
  - now exists [].
  - rewrite Hb, Hbs. simpl. now eexists.
Qed.

Lemma Forall2_length_eq {A B : Type} (R : A -> B -> Prop) l l' :
  Forall2 R l l' -> length l' = length l.
Proof. induction 1; simpl; congruence. Qed.

Lemma Forall2_In_r {A B : Type} (R : A -> B -> Prop) l l' b :
  Forall2 R l l' -> In b l' -> exists a, In a l /\ R a b.
Proof.
  induction 1 as [|a0 b0 l l' Hab _ IH]; simpl; [contradiction|].
  intros [<-|Hin]; [exists a0; auto|].
  destruct (IH Hin) as (a & Ha & HR). exists a; auto.
Qed.

Lemma Forall2_In_l {A B : Type} (R : A -> B -> Prop) l l' a :
  Forall2 R l l' -> In a l -> exists b, In b l' /\ R a b.
Proof.
  induction 1 as [|a0 b0 l l' Hab _ IH]; simpl; [contradiction|].
  intros [<-|Hin]; [exists b0; auto|].
  destruct (IH Hin) as (b & Hb & HR). exists b; auto.
Qed.

(** ** Index normalisation *)

Lemma normalize_index_ok size j j' :
  normalize_index size j = Ok j' <->
  (- size <= j < size /\ j' = wrap size j).
Proof.
  unfold normalize_index.
  destruct (Z.leb_spec (- size) j) as [Hlo|Hlo],
           (Z.ltb_spec j size) as [Hhi|Hhi]; simpl;
    split; intros Hn; try discriminate; try lia.
  - injection Hn as <-. lia.
  - destruct Hn as [_ ->]. reflexivity.
Qed.

Lemma wrap_range size j : - size <= j < size -> 0 <= wrap size j < size.
Proof. unfold wrap. destruct (Z.ltb_spec j 0); lia. Qed.

(** ** One row *)

Lemma nth_error_indexed (f : Z * Z -> Z) (row : list Z) (s w : nat) :
  nth_error (map f (combine (map Z.of_nat (seq s (length row))) row)) w =
  option_map (fun x => f (Z.of_nat (s + w), x)) (nth_error row w).
Proof.
  revert s w; induction row as [|x row IH]; intros s w; simpl.
  - now destruct w.
  - destruct w as [|w]; simpl.
    + now rewrite Nat.add_0_r.
    + rewrite IH. now rewrite Nat.add_succ_r.
Qed.

Lemma assign_row_ok idx v row row' :
  assign_row idx v row = Ok row' <->
  exists cols,
    Forall2 (fun j c => - Z.of_nat (length row) <= j < Z.of_nat (length row)
                        /\ c = wrap (Z.of_nat (length row)) j) idx cols /\
    row' = map (assigned cols v) (combine (range (length row)) row).
Proof.
  unfold assign_row.
  destruct (mapM (normalize_index (Z.of_nat (length row))) idx) as [cols|e] eqn:Hm;
    simpl.
  - apply mapM_ok in Hm. split.
    + intros H; injection H as <-. exists cols. split; [|reflexivity].
      eapply Forall2_impl; [|exact Hm]. intros j c. apply normalize_index_ok.
    + intros (cols' & Hc & ->).
      assert (cols' = cols) as ->; [|reflexivity].
      clear - Hm Hc. revert cols' Hc.
      induction Hm as [|j c idx cols Hj _ IH]; intros cols' Hc;
        inversion Hc as [|j0 c0 idx0 cols0 [_ Hc0] Hrest]; subst; trivial.
      apply normalize_index_ok in Hj. destruct Hj as [_ ->].
      f_equal. now apply IH.
  - split; [discriminate|]. intros (cols & Hc & _).
    assert (Hm' : mapM (normalize_index (Z.of_nat (length row))) idx = Ok cols).
    { apply mapM_ok. eapply Forall2_impl; [|exact Hc].
      intros j c. apply normalize_index_ok. }
    congruence.
Qed.

Lemma assign_row_length idx v row row' :
  assign_row idx v row = Ok row' -> length row' = length row.
Proof.
  intros H. apply assign_row_ok in H. destruct H as (cols & _ & ->).
  rewrite length_map, length_combine. unfold range.
  rewrite length_map, length_seq. lia.
Qed.

Lemma assign_row_nth idx v row row' w :
  assign_row idx v row = Ok row' ->
  exists cols,
    Forall2 (fun j c => - Z.of_nat (length row) <= j < Z.of_nat (length row)
                        /\ c = wrap (Z.of_nat (length row)) j) idx cols /\
    nth_error row' w =
      option_map (fun x => assigned cols v (Z.of_nat w, x)) (nth_error row w).
Proof.
  intros H. apply assign_row_ok in H. destruct H as (cols & Hc & ->).
  exists cols. split; [assumption|].
  unfold range. now rewrite nth_error_indexed.
Qed.

Lemma assign_row_binary idx row row' :
  assign_row idx 1 row = Ok row' -> Forall binary row -> Forall binary row'.
Proof.
  intros H Hb. apply assign_row_ok in H. destruct H as (cols & _ & ->).
  apply Forall_forall. intros y Hy.
  apply in_map_iff in Hy. destruct Hy as ([w x] & <- & Hin).
  apply in_combine_r in Hin. simpl.
  destruct (existsb (Z.eqb w) cols); [now right|].
  revert x Hin. now apply Forall_forall.
Qed.

Lemma assign_row_keeps_ones idx row row' w :
  assign_row idx 1 row = Ok row' ->
  nth_error row w = Some 1 -> nth_error row' w = Some 1.
Proof.
  intros H Hw. destruct (assign_row_nth _ _ _ _ w H) as (cols & _ & ->).
  rewrite Hw. simpl. now destruct (existsb _ cols).
Qed.

Lemma assign_row_sets idx row row' j :
  assign_row idx 1 row = Ok row' -> In j idx ->
  - Z.of_nat (length row) <= j < Z.of_nat (length row) /\
  nth_error row' (Z.to_nat (wrap (Z.of_nat (length row)) j)) = Some 1.
Proof.
  intros H Hj.
  destruct (assign_row_nth _ _ _ _
              (Z.to_nat (wrap (Z.of_nat (length row)) j)) H)
    as (cols & Hc & ->).
  destruct (Forall2_In_l _ _ _ _ Hc Hj) as (c & Hcin & Hr & ->).
  split; [assumption|].
  pose proof (wrap_range _ _ Hr) as Hw.
  destruct (nth_error row (Z.to_nat (wrap (Z.of_nat (length row)) j)))
    as [x|] eqn:Hx.
  - simpl. rewrite Z2Nat.id by lia.
    replace (existsb (Z.eqb (wrap (Z.of_nat (length row)) j)) cols) with true;
      [reflexivity|].
    symmetry. apply existsb_exists. exists (wrap (Z.of_nat (length row)) j).
    split; [assumption | apply Z.eqb_refl].
  - apply nth_error_None in Hx. lia.
Qed.

(** ** One grid *)

Lemma assign_lines_ok idx m m' :
  assign_lines idx 1 m = Ok m' ->
  Forall2 (fun row row' => assign_row idx 1 row = Ok row') m m'.
Proof. apply mapM_ok. Qed.

Lemma assign_lines_grid H W idx m m' :
  assign_lines idx 1 m = Ok m' -> grid_ok H W m -> grid_ok H W m'.
Proof.
  intros Ha (Hlen & Hrows & Hsame). apply assign_lines_ok in Ha.
  split; [|split].
  - rewrite (Forall2_length_eq _ _ _ Ha). assumption.
  - apply Forall_forall. intros row' Hin.
    destruct (Forall2_In_r _ _ _ _ Ha Hin) as (row & Hrow & Hassign).
    rewrite Forall_forall in Hrows. destruct (Hrows row Hrow) as [Hl Hb].
    split.
    + now rewrite (assign_row_length _ _ _ _ Hassign).
    + now apply (assign_row_binary _ _ _ Hassign).
  - intros r1 r2 H1 H2.
    destruct (Forall2_In_r _ _ _ _ Ha H1) as (q1 & Hq1 & Ha1).
    destruct (Forall2_In_r _ _ _ _ Ha H2) as (q2 & Hq2 & Ha2).
    rewrite (Hsame q1 q2 Hq1 Hq2) in Ha1. congruence.
Qed.

Lemma assign_lines_keeps H W idx idx0 m m' :
  assign_lines idx 1 m = Ok m' -> grid_ok H W m ->
  lines_set W idx0 m -> lines_set W idx0 m'.
Proof.
  intros Ha Hg Hset j row' Hj Hin. apply assign_lines_ok in Ha.
  destruct (Forall2_In_r _ _ _ _ Ha Hin) as (row & Hrow & Hassign).
  apply (assign_row_keeps_ones _ _ _ _ Hassign). now apply Hset.
Qed.

Lemma assign_lines_sets H W idx m m' :
  assign_lines idx 1 m = Ok m' -> grid_ok H W m -> lines_set W idx m'.
Proof.
  intros Ha (_ & Hrows & _) j row' Hj Hin. apply assign_lines_ok in Ha.
  destruct (Forall2_In_r _ _ _ _ Ha Hin) as (row & Hrow & Hassign).
  rewrite Forall_forall in Hrows. destruct (Hrows row Hrow) as [<- _].
  now apply (assign_row_sets _ _ _ j Hassign).
Qed.

Lemma assign_lines_total W idx m :
  Forall (fun row => Z.of_nat (length row) = W) m ->
  Forall (fun j => - W <= j < W) idx ->
  exists m', assign_lines idx 1 m = Ok m'.
Proof.
  intros Hrows Hidx. apply mapM_total.
  eapply Forall_impl; [|exact Hrows]. intros row <-.
  unfold assign_row.
  destruct (mapM_total (normalize_index (Z.of_nat (length row))) idx)
    as [cols ->]; [|simpl; now eexists].
  eapply Forall_impl; [|exact Hidx]. intros j Hj.
  exists (wrap (Z.of_nat (length row)) j). now apply normalize_index_ok.
Qed.

(** ** The whole mask *)

Lemma torch_zeros_ok B H W mask :
  torch_zeros B H W = Ok mask ->
  0 <= B /\ 0 <= H /\ 0 <= W /\ mask_ok B H W [] mask.
Proof.
  unfold torch_zeros.
  destruct (Z.ltb_spec B 0) as [HB|HB], (Z.ltb_spec H 0) as [HH|HH],
           (Z.ltb_spec W 0) as [HW|HW]; simpl; try discriminate.
  intros Hm; injection Hm as <-.
  repeat (split; [assumption|]). split.
  - rewrite repeat_length. lia.
  - apply Forall_forall. intros m Hm. apply repeat_spec in Hm. subst m.
    split; [|intros j row []].
    split; [rewrite repeat_length; lia|]. split.
    + apply Forall_forall. intros row Hrow. apply repeat_spec in Hrow.
      subst row. split; [rewrite repeat_length; lia|].
      apply Forall_forall. intros x Hx. apply repeat_spec in Hx. now left.
    + intros r1 r2 Hr1 Hr2. apply repeat_spec in Hr1, Hr2. congruence.
Qed.

Lemma torch_zeros_total B H W :
  0 <= B -> 0 <= H -> 0 <= W -> exists mask, torch_zeros B H W = Ok mask.
Proof.
  intros HB HH HW. unfold torch_zeros.
  destruct (Z.ltb_spec B 0) as [HB'|_], (Z.ltb_spec H 0) as [HH'|_],
           (Z.ltb_spec W 0) as [HW'|_]; simpl; try lia. now eexists.
Qed.

Lemma assign_all_ok B H W idx mask mask' :
  assign_all idx 1 mask = Ok mask' ->
  mask_ok B H W [] mask -> mask_ok B H W idx mask'.
Proof.
  intros Ha [Hlen Hgrids]. apply mapM_ok in Ha. split.
  - now rewrite (Forall2_length_eq _ _ _ Ha).
  - apply Forall_forall. intros m' Hin.
    destruct (Forall2_In_r _ _ _ _ Ha Hin) as (m & Hm & Hassign).
    rewrite Forall_forall in Hgrids. destruct (Hgrids m Hm) as [Hg _].
    split.
    + now apply (assign_lines_grid _ _ _ _ _ Hassign).
    + now apply (assign_lines_sets H _ _ _ _ Hassign).
Qed.

Lemma grid_rows_width H W m :
  grid_ok H W m -> Forall (fun row => Z.of_nat (length row) = W) m.
Proof.
  intros (_ & Hrows & _). eapply Forall_impl; [|exact Hrows].
  now intros row [Hl _].
Qed.

Lemma assign_all_total B H W idx0 idx mask :
  mask_ok B H W idx0 mask ->
  Forall (fun j => - W <= j < W) idx ->
  exists mask', assign_all idx 1 mask = Ok mask'.
Proof.
  intros [_ Hgrids] Hidx. apply mapM_total.
  eapply Forall_impl; [|exact Hgrids]. intros m [Hg _].
  apply (assign_lines_total W); [|assumption].
  now apply (grid_rows_width H).
Qed.

Lemma In_firstn {A : Type} (x : A) n l : In x (firstn n l) -> In x l.
Proof.
  intros Hin. rewrite <- (firstn_skipn n l). apply in_or_app. now left.
Qed.

Lemma In_skipn {A : Type} (x : A) n l : In x (skipn n l) -> In x l.
Proof.
  intros Hin. rewrite <- (firstn_skipn n l). apply in_or_app. now right.
Qed.

Lemma length_replace {A : Type} (x y : A) i l :
  nth_error l i = Some x ->
  length (firstn i l ++ y :: skipn (S i) l) = length l.
Proof.
  intros Hn.
  assert (Hi : (i < length l)%nat)
    by (apply nth_error_Some; congruence).
  rewrite length_app, length_firstn, length_cons, length_skipn. lia.
Qed.

Lemma assign_at_ok B H W idx0 i idx mask mask' :
  assign_at i idx 1 mask = Ok mask' ->
  mask_ok B H W idx0 mask -> mask_ok B H W idx0 mask'.
Proof.
  unfold assign_at. intros Ha [Hlen Hgrids].
  destruct (nth_error mask i) as [m|] eqn:Hm; [|discriminate].
  destruct (assign_lines idx 1 m) as [m'|] eqn:Hm'; [|discriminate].
  cbn [bind] in Ha.
  assert (mask' = firstn i mask ++ m' :: skipn (S i) mask) as ->
    by congruence.
  clear Ha. rewrite Forall_forall in Hgrids.
  destruct (Hgrids m (nth_error_In _ _ Hm)) as [Hg Hs].
  split.
  - now rewrite (length_replace m m' i mask Hm).
  - apply Forall_forall. intros g Hin. apply in_app_or in Hin.
    destruct Hin as [Hin | [<- | Hin]].
    + apply Hgrids. now apply In_firstn in Hin.
    + split.
      * now apply (assign_lines_grid _ _ _ _ _ Hm').
      * now apply (assign_lines_keeps H W _ _ _ _ Hm').
    + apply Hgrids. now apply In_skipn in Hin.
Qed.

Lemma assign_at_total B H W idx0 i idx mask :
  mask_ok B H W idx0 mask ->
  (i < length mask)%nat ->
  Forall (fun j => - W <= j < W) idx ->
  exists mask', assign_at i idx 1 mask = Ok mask'.
Proof.
  intros [_ Hgrids] Hi Hidx. unfold assign_at.
  destruct (nth_error mask i) as [m|] eqn:Hm.
  - rewrite Forall_forall in Hgrids.
    destruct (Hgrids m (nth_error_In _ _ Hm)) as [Hg _].
    destruct (assign_lines_total W idx m) as [m' ->];
      [now apply (grid_rows_width H) | assumption |].
    cbn [bind]. now eexists.
  - apply nth_error_None in Hm. lia.
Qed.

Lemma cat_channels_ok mask C t :
  cat_channels mask C = Ok t ->
  0 < C /\ t = map (fun m => repeat m (Z.to_nat C)) mask.
Proof.
  unfold cat_channels. destruct (Z.leb_spec C 0); [discriminate|].
  intros Ht; injection Ht as <-. now split.
Qed.

End TorchProperties.

(* ================================================================== *)
(** * Properties of torch.linspace with an integer dtype *)
(* ================================================================== *)

Section Linspace.

Import Torch.
Local Open Scope Z_scope.

Variables a b n : Z.
Hypothesis n_pos : 0 < n.

Lemma linspace_value_first : linspace_value a b n 0 = a.
Proof.
  unfold linspace_value. rewrite Z.mul_0_l, Z.add_0_r.
  apply Z.quot_mul. lia.
Qed.

Lemma linspace_value_last : linspace_value a b n n = b.
Proof.
  unfold linspace_value.
  replace (a * n + n * (b - a)) with (b * n) by ring.
  apply Z.quot_mul. lia.
Qed.

Lemma linspace_value_mono i j :
  a <= b -> i <= j -> linspace_value a b n i <= linspace_value a b n j.
Proof.
  intros Hab Hij. unfold linspace_value.
  apply Z.quot_le_mono; [assumption | nia].
Qed.

Lemma linspace_value_bounds i :
  a <= b -> 0 <= i <= n -> a <= linspace_value a b n i <= b.
Proof.
  intros Hab Hi.
  pose proof (linspace_value_mono 0 i Hab ltac:(lia)) as Hlo.
  pose proof (linspace_value_mono i n Hab ltac:(lia)) as Hhi.
  rewrite linspace_value_first in Hlo. rewrite linspace_value_last in Hhi.
  lia.
Qed.

(** Truncated division moves by at most one when the dividend grows by
    at most the divisor. *)
Lemma quot_step x d :
  0 <= d <= n -> Z.quot (x + d) n <= Z.quot x n + 1.
Proof.
  intros Hd.
  pose proof (Z.quot_rem' x n) as Hx.
  pose proof (Z.quot_rem' (x + d) n) as Hxd.
  destruct (Z.le_gt_cases 0 (x + d)) as [Hpos | Hneg].
  - pose proof (Z.rem_bound_pos (x + d) n Hpos n_pos) as Hr'.
    pose proof (Z.rem_bound_abs x n ltac:(lia)) as Hr.
    nia.
  - pose proof (Z.rem_bound_pos_neg (x + d) n n_pos ltac:(lia)) as Hr'.
    pose proof (Z.rem_bound_pos_neg x n n_pos ltac:(lia)) as Hr.
    nia.
Qed.

Lemma linspace_value_step i :
  a <= b -> b - a <= n ->
  linspace_value a b n (i + 1) <= linspace_value a b n i + 1.
Proof.
  intros Hab Hspan. unfold linspace_value.
  replace (a * n + (i + 1) * (b - a)) with (a * n + i * (b - a) + (b - a))
    by ring.
  apply quot_step. lia.
Qed.

(** When the span is at most [n], the [n + 1] values reach every integer
    of [a .. b]. *)
Lemma linspace_value_reaches k z :
  a <= b -> b - a <= n ->
  a <= z <= linspace_value a b n (Z.of_nat k) ->
  exists i, 0 <= i <= Z.of_nat k /\ linspace_value a b n i = z.
Proof.
  intros Hab Hspan. induction k as [|k IH]; intros Hz.
  - exists 0. simpl in Hz. rewrite linspace_value_first in *. lia.
  - destruct (Z.le_gt_cases z (linspace_value a b n (Z.of_nat k))) as [Hle|Hgt].
    + destruct IH as (i & Hi & Hv); [lia|]. exists i. lia.
    + exists (Z.of_nat (S k)). split; [lia|].
      pose proof (linspace_value_step (Z.of_nat k) Hab Hspan) as Hs.
      replace (Z.of_nat k + 1) with (Z.of_nat (S k)) in Hs by lia.
      lia.
Qed.

End Linspace.

Section LinspaceList.

Import Torch.
Local Open Scope Z_scope.

Lemma in_range k i : In i (range k) <-> 0 <= i < Z.of_nat k.
Proof.
  unfold range. rewrite in_map_iff. split.
  - intros (x & <- & Hx). apply in_seq in Hx. lia.
  - intros Hi. exists (Z.to_nat i). split; [lia|]. apply in_seq. lia.
Qed.

Lemma length_range k : length (range k) = k.
Proof. unfold range. now rewrite length_map, length_seq. Qed.

Lemma nth_range k i : (i < k)%nat -> nth i (range k) 0 = Z.of_nat i.
Proof.
  intros Hi. unfold range.
  change 0 with (Z.of_nat 0).
  rewrite map_nth, seq_nth; [reflexivity | assumption].
Qed.

Lemma length_torch_linspace a b steps :
  length (torch_linspace a b steps) = steps.
Proof.
  destruct steps as [|[|k]]; trivial.
  unfold torch_linspace. now rewrite length_map, length_range.
Qed.

Lemma in_torch_linspace a b k z :
  In z (torch_linspace a b (S (S k))) <->
  exists i, 0 <= i <= Z.of_nat (S k) /\ linspace_value a b (Z.of_nat (S k)) i = z.
Proof.
  unfold torch_linspace. rewrite in_map_iff. split.
  - intros (i & Hv & Hi). apply in_range in Hi. exists i. split; [lia | assumption].
  - intros (i & Hi & Hv). exists i. split; [assumption|]. apply in_range. lia.
Qed.

Lemma nth_torch_linspace a b k i :
  (i < S (S k))%nat ->
  nth i (torch_linspace a b (S (S k))) 0 =
  linspace_value a b (Z.of_nat (S k)) (Z.of_nat i).
Proof.
  intros Hi. unfold torch_linspace.
  rewrite (nth_indep _ 0 (linspace_value a b (Z.of_nat (S k)) 0))
    by (rewrite length_map, length_range; assumption).
  rewrite map_nth. now rewrite nth_range.
Qed.

Lemma torch_linspace_bounds a b k :
  a <= b -> Forall (fun z => a <= z <= b) (torch_linspace a b (S (S k))).
Proof.
  intros Hab. apply Forall_forall. intros z Hz.
  apply in_torch_linspace in Hz. destruct Hz as (i & Hi & <-).
  apply linspace_value_bounds; lia.
Qed.

(** With a span of at most [steps - 1], the values are exactly the
    integers of [a .. b]. *)
Lemma torch_linspace_covers a b k z :
  a <= b -> b - a <= Z.of_nat (S k) ->
  (In z (torch_linspace a b (S (S k))) <-> a <= z <= b).
Proof.
  intros Hab Hspan. split.
  - intros Hz. pose proof (torch_linspace_bounds a b k Hab) as Hb.
    rewrite Forall_forall in Hb. now apply Hb.
  - intros Hz. apply in_torch_linspace.
    apply (linspace_value_reaches a b (Z.of_nat (S k)) ltac:(lia) (S k) z Hab Hspan).
    rewrite linspace_value_last by lia. assumption.
Qed.

(** The kernel's sequence has [steps] values as well. *)
Lemma length_torch_linspace_double a b steps :
  length (torch_linspace_double a b steps) = steps.
Proof.
  destruct steps as [|[|n]]; [reflexivity | reflexivity |].
  unfold torch_linspace_double, range.
  now rewrite !length_map, length_seq.
Qed.

(** On the 50 steps from 13 to 132 (an image of size (145, 1475)) the
    exact value at position 21 is 64; the kernel's double step gives 63. *)
Example torch_linspace_double_13_132 :
  nth 21 (torch_linspace_double 13 132 50) 0 = 63 /\
  nth 21 (torch_linspace 13 132 50) 0 = 64.
Proof. split; vm_compute; reflexivity. Qed.

End LinspaceList.

(* ================================================================== *)
(** * Signs in binary64 arithmetic *)
(* ================================================================== *)

Section FloatSigns.

Import Float64.
Local Open Scope Z_scope.

(** The constants of [step] as doubles: 0.08 is 0x1.47ae147ae147bp-4, and
    0.25 - 0.08 is 0.16999999999999998, below the double nearest to 0.17. *)
Example literal_0_08 :
  literal 8 100 = S754_finite false 0x147AE147AE147B (-56).
Proof. vm_compute. reflexivity. Qed.

Example side_lines_percent_4 :
  sub (literal 25 100) (literal 8 100)
  = S754_finite false 0x15C28F5C28F5C2 (-55)
  /\ literal 17 100 = S754_finite false 0x15C28F5C28F5C3 (-55).
Proof. split; vm_compute; reflexivity. Qed.

(** [int(0.08 * 1000)] is 80 and [int((0.25 - 0.08) * 1000)] is 169. *)
Example int_of_scaled_1000 :
  int_of_scaled (literal 8 100) 1000 = Ok 80
  /\ int_of_scaled (sub (literal 25 100) (literal 8 100)) 1000 = Ok 169.
Proof. split; vm_compute; reflexivity. Qed.

Lemma binary_round_aux_nonneg mx ex lx :
  nonneg (binary_round_aux prec emax false mx ex lx).
Proof.
  unfold binary_round_aux.
  destruct (shr_fexp prec emax mx ex lx) as [mrs' e'].
  destruct (shr_fexp prec emax _ e' loc_Exact) as [mrs'' e''].
  destruct (shr_m mrs''); [reflexivity | | exact I].
  destruct (e'' <=? emax - prec); reflexivity.
Qed.

Lemma round_int_nonneg n : 0 <= n -> nonneg (round_int n).
Proof.
  intros Hn. unfold round_int, binary_normalize.
  destruct n as [|p|p]; [reflexivity | | lia].
  unfold binary_round.
  destruct (shl_align p 0 _) as [mz ez].
  apply binary_round_aux_nonneg.
Qed.

Lemma mul_nonneg x y : nonneg x -> nonneg y -> nonneg (mul x y).
Proof.
  unfold mul.
  destruct x as [sx|sx| |sx mx ex], y as [sy|sy| |sy my ey]; simpl;
    intros Hx Hy; subst; trivial.
  apply binary_round_aux_nonneg.
Qed.

Lemma to_int_nonneg x z : nonneg x -> to_int x = Ok z -> 0 <= z.
Proof.
  destruct x as [s|s| |s m e]; simpl; intros Hx Hz; try discriminate.
  - injection Hz as <-. lia.
  - subst s. injection Hz as <-.
    destruct e; [apply Z.shiftl_nonneg | apply Z.shiftl_nonneg
                | apply Z.shiftr_nonneg]; lia.
Qed.

Lemma int_of_scaled_nonneg x n z :
  nonneg x -> 0 <= n -> int_of_scaled x n = Ok z -> 0 <= z.
Proof.
  intros Hx Hn. unfold int_of_scaled, of_int.
  pose proof (round_int_nonneg n Hn) as Hr.
  destruct (round_int n) as [s|s| |s m e] eqn:Hf; simpl;
    try discriminate; intros Hz;
    refine (to_int_nonneg _ _ (mul_nonneg _ _ Hx _) Hz); exact Hr.
Qed.

End FloatSigns.

(* ================================================================== *)
(** * Properties of AccelerationMaskGenerator *)
(* ================================================================== *)

Section GeneratorProperties.

Import Float64 Torch Numpy AccelerationMaskGenerator.
Local Open Scope Z_scope.

(** ** The density parameters *)

Lemma density_ok c t W l :
  density c t W = Ok l ->
  exists nc ns,
    l = {| num_lines_center := Some nc; num_lines_side := Some ns |} /\
    int_of_scaled c W = Ok nc /\ int_of_scaled (sub t c) W = Ok ns.
Proof.
  unfold density. intros Hd.
  destruct (int_of_scaled c W) as [nc|] eqn:Hnc; [|discriminate].
  destruct (int_of_scaled (sub t c) W) as [ns|] eqn:Hns; [|discriminate].
  simpl in Hd. injection Hd as <-. now exists nc, ns.
Qed.

(** Outside 4 and 8 neither branch runs: the names stay unbound. *)
Lemma densities_unsupported acc W :
  acc <> 4 -> acc <> 8 -> densities acc W = Ok unbound.
Proof.
  intros H4 H8. unfold densities.
  destruct (Z.eqb_spec acc 4); [contradiction|].
  destruct (Z.eqb_spec acc 8); [contradiction|]. reflexivity.
Qed.

Lemma densities_ok acc W l :
  acc = 4 \/ acc = 8 -> 0 <= W -> densities acc W = Ok l ->
  exists nc ns,
    l = {| num_lines_center := Some nc; num_lines_side := Some ns |} /\
    0 <= nc /\ 0 <= ns.
Proof.
  intros Hacc HW. unfold densities.
  destruct Hacc as [-> | ->]; simpl; intros Hd.
  - destruct (density _ _ W) as [l0|] eqn:Hd0; [|discriminate].
    simpl in Hd. injection Hd as <-.
    destruct (density_ok _ _ _ _ Hd0) as (nc & ns & -> & Hnc & Hns).
    exists nc, ns. split; [reflexivity|]. split.
    + refine (int_of_scaled_nonneg _ _ _ _ HW Hnc). vm_compute; reflexivity.
    + refine (int_of_scaled_nonneg _ _ _ _ HW Hns). vm_compute; reflexivity.
  - destruct (density_ok _ _ _ _ Hd) as (nc & ns & -> & Hnc & Hns).
    exists nc, ns. split; [reflexivity|]. split.
    + refine (int_of_scaled_nonneg _ _ _ _ HW Hnc). vm_compute; reflexivity.
    + refine (int_of_scaled_nonneg _ _ _ _ HW Hns). vm_compute; reflexivity.
Qed.

(** ** The random lines *)

Lemma random_choice_ok a k outcome l :
  random_choice a k outcome = Ok l -> l = outcome /\ 0 <= k <= a.
Proof.
  unfold random_choice.
  destruct (Z.ltb_spec k 0); [discriminate|].
  destruct (Z.leb_spec a 0), (Z.eqb_spec k 0); simpl; try discriminate;
    destruct (Z.ltb_spec a k); try discriminate;
    intros Hl; injection Hl as <-; split; trivial; lia.
Qed.

Lemma random_choice_total a k outcome :
  0 <= k <= a -> random_choice a k outcome = Ok outcome.
Proof.
  intros Hk. unfold random_choice.
  destruct (Z.ltb_spec k 0); [lia|].
  destruct (Z.leb_spec a 0), (Z.eqb_spec k 0); simpl; try lia;
    destruct (Z.ltb_spec a k); trivial; lia.
Qed.

Lemma random_lines_ok B H W idx0 Hc l rng batch mask mask' :
  random_lines Hc l rng batch mask = Ok mask' ->
  mask_ok B H W idx0 mask -> mask_ok B H W idx0 mask'.
Proof.
  revert mask. induction batch as [|i batch IH]; intros mask; simpl.
  - intros Hm; injection Hm as <-. trivial.
  - destruct (local _ (num_lines_side l)) as [ns|]; [|discriminate]. simpl.
    destruct (random_choice Hc (ns / 2) (rng i)) as [ri|]; [|discriminate].
    simpl.
    destruct (assign_at i ri 1 mask) as [mask1|] eqn:Ha; [|discriminate].
    simpl. intros Hr Hok. apply (IH mask1 Hr).
    now apply (assign_at_ok _ _ _ _ _ _ _ _ Ha).
Qed.

Lemma random_lines_total B H W idx0 nc ns rng batch mask :
  0 <= ns / 2 <= H ->
  (0 < ns / 2 -> H <= W) ->
  Forall (fun i => Z.of_nat i < B /\ valid_choice H (ns / 2) (rng i)) batch ->
  mask_ok B H W idx0 mask ->
  exists mask',
    random_lines H {| num_lines_center := Some nc; num_lines_side := Some ns |}
      rng batch mask = Ok mask'.
Proof.
  intros Hk HW Hb. revert mask.
  induction Hb as [|i batch [Hi (Hlen & _ & Hrange)] _ IH]; intros mask Hok;
    simpl.
  - now eexists.
  - rewrite random_choice_total by assumption. simpl.
    destruct (assign_at_total B H W idx0 i (rng i) mask Hok) as [mask1 Ha].
    + destruct Hok as [HB _]. lia.
    + rewrite Forall_forall in Hrange. apply Forall_forall. intros j Hin.
      specialize (Hrange j Hin). simpl in Hrange.
      assert (0 < ns / 2).
      { destruct (rng i); [contradiction|]. simpl in Hlen. lia. }
      lia.
    + rewrite Ha. simpl. apply IH.
      now apply (assign_at_ok _ _ _ _ _ _ _ _ Ha).
Qed.

(** ** Replication over the channel axis *)

Lemma cat_channels_props B C H W idx mask t :
  cat_channels mask C = Ok t ->
  mask_ok B H W idx mask ->
  has_shape4 t B C H W /\ binary4 t /\ channels_identical t /\
  columns_constant W t /\ lines_set4 W idx t /\
  (forall chans m, In chans t -> In m chans -> grid_ok H W m).
Proof.
  intros Hc [HB Hgrids]. apply cat_channels_ok in Hc.
  destruct Hc as [HC ->]. rewrite Forall_forall in Hgrids.
  assert (Hin : forall chans m,
             In chans (map (fun m => repeat m (Z.to_nat C)) mask) ->
             In m chans -> In m mask /\ chans = repeat m (Z.to_nat C)).
  { intros chans m Hch Hm. apply in_map_iff in Hch.
    destruct Hch as (m0 & <- & Hm0). apply repeat_spec in Hm.
    subst m. now split. }
  assert (Hgrid : forall chans m,
             In chans (map (fun m => repeat m (Z.to_nat C)) mask) ->
             In m chans -> grid_ok H W m /\ lines_set W idx m).
  { intros chans m Hch Hm. destruct (Hin chans m Hch Hm) as [Hm0 _].
    now apply Hgrids. }
  split; [|split; [|split; [|split; [|split]]]].
  - split; [now rewrite length_map|].
    apply Forall_forall. intros chans Hch. split.
    + apply in_map_iff in Hch. destruct Hch as (m0 & <- & _).
      rewrite repeat_length. lia.
    + apply Forall_forall. intros m Hm.
      destruct (Hgrid chans m Hch Hm) as [(Hlen & Hrows & _) _].
      split; [assumption|].
      eapply Forall_impl; [|exact Hrows]. now intros row [Hl _].
  - apply Forall_forall. intros chans Hch.
    apply Forall_forall. intros m Hm.
    destruct (Hgrid chans m Hch Hm) as [(_ & Hrows & _) _].
    eapply Forall_impl; [|exact Hrows]. now intros row [_ Hb].
  - apply Forall_forall. intros chans Hch m1 m2 H1 H2.
    apply in_map_iff in Hch. destruct Hch as (m0 & <- & _).
    apply repeat_spec in H1, H2. congruence.
  - intros chans m w Hch Hm Hw.
    destruct (Hgrid chans m Hch Hm) as [(_ & Hrows & Hsame) _].
    rewrite Forall_forall in Hrows.
    destruct m as [|r0 m'] eqn:Em; [left; intros row []|].
    destruct (Hrows r0 (or_introl eq_refl)) as [Hl Hb].
    destruct (nth_error r0 (Z.to_nat w)) as [x|] eqn:Hx.
    + rewrite Forall_forall in Hb.
      destruct (Hb x (nth_error_In _ _ Hx)) as [-> | ->]; [right | left];
        intros row Hrow; now rewrite (Hsame row r0 Hrow (or_introl eq_refl)).
    + apply nth_error_None in Hx. lia.
  - intros chans m Hch Hm. now apply (Hgrid chans m).
  - intros chans m Hch Hm. now apply (Hgrid chans m).
Qed.

(** ** What a successful call went through *)

Lemma step_with_ok linspace self batch_size rng r :
  step_with linspace self batch_size rng = Ok r ->
  exists C H W nc ns t,
    unpack_img_size (img_size self) = Ok (C, H, W) /\
    (acceleration self = 4 \/ acceleration self = 8) /\
    densities (acceleration self) W =
      Ok {| num_lines_center := Some nc; num_lines_side := Some ns |} /\
    0 <= batch_size /\ 0 <= H /\ 0 <= W /\ 0 < C /\ 0 <= nc /\
    r = [("mask"%string, t)] /\
    has_shape4 t batch_size C H W /\ binary4 t /\ channels_identical t /\
    columns_constant W t /\
    lines_set4 W (linspace (H / 2 - nc / 2) (H / 2 + nc / 2 + 1) 50%nat) t /\
    (forall chans m, In chans t -> In m chans -> grid_ok H W m).
Proof.
  unfold step_with. intros Hs.
  destruct (unpack_img_size (img_size self)) as [[[C H] W]|] eqn:Hu;
    [|discriminate]. cbn [bind] in Hs.
  destruct (densities (acceleration self) W) as [l|] eqn:Hd; [|discriminate].
  cbn [bind] in Hs.
  destruct (torch_zeros batch_size H W) as [mask0|] eqn:Hz; [|discriminate].
  cbn [bind] in Hs.
  destruct (num_lines_center l) as [nc|] eqn:Hnc; [|discriminate].
  cbn [bind local] in Hs.
  destruct (assign_all _ 1 mask0) as [mask1|] eqn:Ha;
    [|discriminate]. cbn [bind] in Hs.
  destruct (random_lines H l rng _ mask1) as [mask2|] eqn:Hr; [|discriminate].
  cbn [bind] in Hs.
  destruct (cat_channels mask2 C) as [t|] eqn:Hc; [|discriminate].
  cbn [bind] in Hs. injection Hs as <-.
  apply torch_zeros_ok in Hz. destruct Hz as (HB & HH & HW & Hok0).
  assert (Hacc : acceleration self = 4 \/ acceleration self = 8).
  { destruct (Z.eq_dec (acceleration self) 4) as [|H4]; [now left|].
    destruct (Z.eq_dec (acceleration self) 8) as [|H8]; [now right|].
    rewrite (densities_unsupported _ W H4 H8) in Hd.
    injection Hd as <-. discriminate. }
  destruct (densities_ok _ _ _ Hacc HW Hd) as (nc' & ns & -> & Hnc0 & Hns0).
  simpl in Hnc. injection Hnc as ->.
  pose proof (assign_all_ok _ _ _ _ _ _ Ha Hok0) as Hok1.
  pose proof (random_lines_ok _ _ _ _ _ _ _ _ _ _ Hr Hok1) as Hok2.
  destruct (cat_channels_ok _ _ _ Hc) as [HC _].
  destruct (cat_channels_props _ _ _ _ _ _ _ Hc Hok2)
    as (Hshape & Hbin & Hchan & Hcol & Hset & Hgrid).
  exists C, H, W, nc, ns, t. repeat (split; [assumption || reflexivity|]).
  assumption.
Qed.

Lemma step_ok self batch_size rng r :
  step self batch_size rng = Ok r ->
  exists C H W nc ns t,
    unpack_img_size (img_size self) = Ok (C, H, W) /\
    (acceleration self = 4 \/ acceleration self = 8) /\
    densities (acceleration self) W =
      Ok {| num_lines_center := Some nc; num_lines_side := Some ns |} /\
    0 <= batch_size /\ 0 <= H /\ 0 <= W /\ 0 < C /\ 0 <= nc /\
    r = [("mask"%string, t)] /\
    has_shape4 t batch_size C H W /\ binary4 t /\ channels_identical t /\
    columns_constant W t /\
    lines_set4 W (center_line_indices H nc) t /\
    (forall chans m, In chans t -> In m chans -> grid_ok H W m).
Proof. exact (step_with_ok torch_linspace self batch_size rng r). Qed.

Lemma densities_bound acc W l nc :
  densities acc W = Ok l -> num_lines_center l = Some nc ->
  acc = 4 \/ acc = 8.
Proof.
  intros Hd Hnc.
  destruct (Z.eq_dec acc 4) as [|H4]; [now left|].
  destruct (Z.eq_dec acc 8) as [|H8]; [now right|].
  rewrite (densities_unsupported _ W H4 H8) in Hd.
  injection Hd as <-. discriminate.
Qed.

Lemma center_line_indices_range H W nc :
  0 <= nc -> - W <= H / 2 - nc / 2 -> H / 2 + nc / 2 + 1 < W ->
  Forall (fun j => - W <= j < W) (center_line_indices H nc).
Proof.
  intros Hnc Hlo Hhi. unfold center_line_indices.
  assert (Hab : H / 2 - nc / 2 <= H / 2 + nc / 2 + 1).
  { pose proof (Z.div_pos nc 2 Hnc ltac:(lia)). lia. }
  eapply Forall_impl; [|exact (torch_linspace_bounds _ _ 48 Hab)].
  simpl. intros j Hj. lia.
Qed.

(** ** When no exception is raised *)

Lemma step_total self batch_size rng C H W nc ns :
  unpack_img_size (img_size self) = Ok (C, H, W) ->
  densities (acceleration self) W =
    Ok {| num_lines_center := Some nc; num_lines_side := Some ns |} ->
  0 <= batch_size -> 0 <= H -> 0 <= W -> 0 < C ->
  - W <= H / 2 - nc / 2 -> H / 2 + nc / 2 + 1 < W ->
  ns / 2 <= H -> (0 < ns / 2 -> H <= W) ->
  (forall i, Z.of_nat i < batch_size -> valid_choice H (ns / 2) (rng i)) ->
  exists r, step self batch_size rng = Ok r.
Proof.
  intros Hu Hd HB HH HW HC Hlo Hhi Hk HkW Hrng.
  pose proof (densities_bound _ _ _ nc Hd eq_refl) as Hacc.
  destruct (densities_ok _ _ _ Hacc HW Hd) as (nc' & ns' & E & Hnc & Hns).
  injection E as <- <-.
  unfold step, step_with. rewrite Hu. cbn [bind]. rewrite Hd. cbn [bind].
  destruct (torch_zeros_total _ _ _ HB HH HW) as [mask0 Hz].
  rewrite Hz. cbn [bind num_lines_center local].
  apply torch_zeros_ok in Hz. destruct Hz as (_ & _ & _ & Hok0).
  destruct (assign_all_total _ _ _ _ (center_line_indices H nc) _ Hok0)
    as [mask1 Ha]; [now apply center_line_indices_range|].
  cbv zeta.
  change (torch_linspace (H / 2 - nc / 2) (H / 2 + nc / 2 + 1) 50)
    with (center_line_indices H nc).
  rewrite Ha. cbn [bind].
  pose proof (assign_all_ok _ _ _ _ _ _ Ha Hok0) as Hok1.
  destruct (random_lines_total batch_size H W (center_line_indices H nc)
              nc ns rng (seq 0 (Z.to_nat batch_size)) mask1)
    as [mask2 Hr]; trivial.
  - pose proof (Z.div_pos ns 2 Hns ltac:(lia)). lia.
  - apply Forall_forall. intros i Hi. apply in_seq in Hi.
    assert (Z.of_nat i < batch_size) by lia. auto.
  - rewrite Hr. cbn [bind]. unfold cat_channels.
    destruct (Z.leb_spec C 0); [lia|]. cbn [bind]. now eexists.
Qed.

Lemma unpack_img_size_cases img_size C H W :
  (img_size = [H; W] /\ C = 2) \/ (img_size = [C; H; W] /\ 0 < C) ->
  unpack_img_size img_size = Ok (C, H, W) /\ 0 < C.
Proof. intros [[-> ->] | [-> HC]]; simpl; split; trivial; lia. Qed.

(** A call with admissible parameters and line indices inside the last
    axis returns the mask. *)
Lemma step_mask self batch_size rng C H W nc ns :
  (img_size self = [H; W] /\ C = 2) \/ (img_size self = [C; H; W] /\ 0 < C) ->
  0 < batch_size -> 0 <= H -> 0 <= W ->
  densities (acceleration self) W =
    Ok {| num_lines_center := Some nc; num_lines_side := Some ns |} ->
  - W <= H / 2 - nc / 2 -> H / 2 + nc / 2 + 1 < W ->
  ns / 2 <= H -> (0 < ns / 2 -> H <= W) ->
  (forall i, Z.of_nat i < batch_size -> valid_choice H (ns / 2) (rng i)) ->
  exists t,
    step self batch_size rng = Ok [("mask"%string, t)] /\
    has_shape4 t batch_size C H W /\ binary4 t /\ channels_identical t.
Proof.
  intros Himg HB HH HW Hd Hlo Hhi Hk HkW Hrng.
  destruct (unpack_img_size_cases _ _ _ _ Himg) as [Hu HC].
  destruct (step_total self batch_size rng C H W nc ns) as [r Hr];
    trivial; [lia|].
  destruct (step_ok _ _ _ _ Hr)
    as (C' & H' & W' & nc' & ns' & t & Hu' & _ & _ & _ & _ & _ & _ & _
        & -> & Hshape & Hbin & Hchan & _).
  rewrite Hu in Hu'. injection Hu' as <- <- <-.
  exists t. auto.
Qed.

Lemma lines_fit_ok acc H W :
  lines_fit acc H W = true ->
  exists nc ns,
    densities acc W =
      Ok {| num_lines_center := Some nc; num_lines_side := Some ns |} /\
    - W <= H / 2 - nc / 2 /\ H / 2 + nc / 2 + 1 < W /\
    ns / 2 <= H /\ (0 < ns / 2 -> H <= W).
Proof.
  unfold lines_fit.
  destruct (densities acc W) as [[[nc|] [ns|]]|]; try discriminate.
  intros Hfit. exists nc, ns. split; [reflexivity|].
  apply andb_prop in Hfit. destruct Hfit as [Hfit Hw].
  apply andb_prop in Hfit. destruct Hfit as [Hfit Hk].
  apply andb_prop in Hfit. destruct Hfit as [Hlo Hhi].
  apply orb_prop in Hw.
  split; [lia|]. split; [lia|]. split; [lia|].
  intros Hpos. destruct Hw as [Hw | Hw]; lia.
Qed.

(** The test succeeds on every square image of side 3 to 1024, for both
    acceleration factors. *)
Lemma lines_fit_square n :
  3 <= n <= 1024 -> lines_fit 4 n n = true /\ lines_fit 8 n n = true.
Proof.
  intros Hn.
  assert (Hall : forallb (fun k => lines_fit 4 k k && lines_fit 8 k k)
                   (map Z.of_nat (seq 3 1022)) = true)
    by (vm_compute; reflexivity).
  rewrite forallb_forall in Hall.
  apply andb_prop. apply Hall.
  apply in_map_iff. exists (Z.to_nat n). split; [lia|]. apply in_seq. lia.
Qed.

(** On square images of side 3 to 1024 no exception is raised. *)
Lemma step_square_images self batch_size rng C n :
  (img_size self = [n; n] /\ C = 2) \/ (img_size self = [C; n; n] /\ 0 < C) ->
  acceleration self = 4 \/ acceleration self = 8 ->
  3 <= n <= 1024 -> 0 < batch_size ->
  (forall nc ns i,
     densities (acceleration self) n =
       Ok {| num_lines_center := Some nc; num_lines_side := Some ns |} ->
     Z.of_nat i < batch_size -> valid_choice n (ns / 2) (rng i)) ->
  exists t,
    step self batch_size rng = Ok [("mask"%string, t)] /\
    has_shape4 t batch_size C n n /\ binary4 t /\ channels_identical t.
Proof.
  intros Himg Hacc Hn HB Hrng.
  destruct (lines_fit_square n Hn) as [H4 H8].
  assert (Hfit : lines_fit (acceleration self) n n = true)
    by (destruct Hacc as [-> | ->]; assumption).
  destruct (lines_fit_ok _ _ _ Hfit) as (nc & ns & Hd & Hlo & Hhi & Hk & HkW).
  apply (step_mask self batch_size rng C n n nc ns); trivial; try lia.
  intros i Hi. now apply (Hrng nc ns i).
Qed.

(** Where the line indices fall inside the last axis and the draw is
    feasible: for an image size (H, W), where C is 2, or (C, H, W), with
    acceleration 4 or 8, [step(batch_size)] returns, for every positive
    [batch_size] and whatever the random source draws, a dictionary whose
    only key is "mask"; the tensor under it has shape
    (batch_size, C, H, W), entries 0 or 1, and identical channel slices. *)
Theorem step_returns_mask self batch_size rng C H W nc ns :
  (img_size self = [H; W] /\ C = 2) \/ (img_size self = [C; H; W] /\ 0 < C) ->
  acceleration self = 4 \/ acceleration self = 8 ->
  0 < batch_size -> 0 <= H -> 0 <= W ->
  densities (acceleration self) W =
    Ok {| num_lines_center := Some nc; num_lines_side := Some ns |} ->
  - W <= H / 2 - nc / 2 -> H / 2 + nc / 2 + 1 < W ->
  ns / 2 <= H -> (0 < ns / 2 -> H <= W) ->
  (forall i, Z.of_nat i < batch_size -> valid_choice H (ns / 2) (rng i)) ->
  exists t,
    step self batch_size rng = Ok [("mask"%string, t)] /\
    has_shape4 t batch_size C H W /\ binary4 t /\ channels_identical t.
Proof.
  intros Himg _ HB HH HW Hd Hlo Hhi Hk HkW Hrng.
  destruct (step_mask self batch_size rng C H W nc ns)
    as (t & Hs & Hshape & Hbin & Hchan); trivial.
  exists t. split; [exact Hs|]. split; [exact Hshape|]. split; assumption.
Qed.

(** C5 (the code departs from it). With an acceleration other than 4 and
    8, [step] reads [num_lines_center] before any assignment to it: the
    call ends in an [UnboundLocalError], not in a configuration error. *)
Theorem step_unsupported_acceleration self batch_size rng C H W :
  unpack_img_size (img_size self) = Ok (C, H, W) ->
  acceleration self <> 4 -> acceleration self <> 8 ->
  0 <= batch_size -> 0 <= H -> 0 <= W ->
  step self batch_size rng = Raise (UnboundLocalError "num_lines_center").
Proof.
  intros Hu H4 H8 HB HH HW. unfold step, step_with.
  rewrite Hu. cbn [bind].
  rewrite (densities_unsupported _ W H4 H8). cbn [bind].
  destruct (torch_zeros_total _ _ _ HB HH HW) as [mask0 ->].
  reflexivity.
Qed.

(** C6, amended. In every mask produced by [step], each column of the
    (H, W) grids (a fixed index on the last axis) is all ones or all
    zeros. *)
Theorem step_columns_constant self batch_size rng t :
  step self batch_size rng = Ok [("mask"%string, t)] ->
  exists C H W,
    unpack_img_size (img_size self) = Ok (C, H, W) /\
    has_shape4 t batch_size C H W /\ columns_constant W t.
Proof.
  intros Hs.
  destruct (step_ok _ _ _ _ Hs)
    as (C & H & W & nc & ns & t' & Hu & _ & _ & _ & _ & _ & _ & _
        & E & Hshape & _ & _ & Hcol & _).
  injection E as <-. exists C, H, W. auto.
Qed.


(** With the sequence that the double-precision formula of the kernel
    gives, the same holds without a condition on [torch.linspace]. *)
Lemma step_kernel_center_band self batch_size rng t :
  step_with torch_linspace_double self batch_size rng
  = Ok [("mask"%string, t)] ->
  exists C H W nc ns,
    unpack_img_size (img_size self) = Ok (C, H, W) /\
    densities (acceleration self) W =
      Ok {| num_lines_center := Some nc; num_lines_side := Some ns |} /\
    let indices :=
      torch_linspace_double (H / 2 - nc / 2) (H / 2 + nc / 2 + 1) 50%nat in
    length indices = 50%nat /\
    has_shape4 t batch_size C H W /\
    lines_set4 W indices t.
Proof.
  intros Hs.
  destruct (step_with_ok _ _ _ _ _ Hs)
    as (C & H & W & nc & ns & t' & Hu & _ & Hd & _ & _ & _ & _ & _
        & E & Hshape & _ & _ & _ & Hset & _).
  injection E as <-. exists C, H, W, nc, ns.
  split; [assumption|]. split; [assumption|]. cbv zeta.
  split; [apply length_torch_linspace_double|]. split; assumption.
Qed.

(** C9. With an [img_size] of length other than 2 and 3, [step] raises
    the [ValueError] of line 52, whatever the other parameters are. *)
Theorem step_bad_img_size self batch_size rng :
  length (img_size self) <> 2%nat -> length (img_size self) <> 3%nat ->
  step self batch_size rng =
    Raise (ValueError "img_size must be (C, H, W) or (H, W)").
Proof.
  intros H2 H3. unfold step, step_with, unpack_img_size.
  destruct (img_size self) as [|a [|b [|c [|d l]]]]; simpl in *;
    try reflexivity; congruence.
Qed.

(** C10. When the span of the central band is at most 49, the indices of
    the 50-step sequence are exactly the integers from
    [H//2 - num_lines_center//2] to [H//2 + num_lines_center//2 + 1],
    both included. *)
Theorem center_band_contiguous acc H W nc ns :
  0 <= W ->
  densities acc W =
    Ok {| num_lines_center := Some nc; num_lines_side := Some ns |} ->
  (H / 2 + nc / 2 + 1) - (H / 2 - nc / 2) <= 49 ->
  forall z,
    In z (center_line_indices H nc) <->
    H / 2 - nc / 2 <= z <= H / 2 + nc / 2 + 1.
Proof.
  intros HW Hd Hspan z.
  pose proof (densities_bound _ _ _ nc Hd eq_refl) as Hacc.
  destruct (densities_ok _ _ _ Hacc HW Hd) as (nc' & ns' & E & Hnc & _).
  injection E as <- <-.
  unfold center_line_indices.
  apply (torch_linspace_covers _ _ 48).
  - pose proof (Z.div_pos nc 2 Hnc ltac:(lia)). lia.
  - change (Z.of_nat 49) with 49. lia.
Qed.

End GeneratorProperties.

Section GeneratorExamples.

Import Float64 Torch Numpy AccelerationMaskGenerator.
Local Open Scope Z_scope.

Lemma rng16_valid i : valid_choice 16 1 (rng16 i).
Proof.
  unfold rng16. split; [reflexivity|]. split.
  - constructor; [intros [] | constructor].
  - constructor; [lia | constructor].
Qed.

Lemma step_gen16 : step gen16 1 rng16 = Ok [("mask"%string, mask16)].
Proof. vm_compute. reflexivity. Qed.

Lemma step_with_gen16 :
  step_with torch_linspace_double gen16 1 rng16 = Ok [("mask"%string, mask16)].
Proof. vm_compute. reflexivity. Qed.

(** The call of the docstring: the mask has shape (1, 2, 16, 16). *)
Lemma step_returns_mask_witness :
  exists t,
    step gen16 1 rng16 = Ok [("mask"%string, t)] /\
    has_shape4 t 1 2 16 16 /\ binary4 t /\ channels_identical t.
Proof.
  apply (step_returns_mask gen16 1 rng16 2 16 16 1 2).
  - left. split; reflexivity.
  - left. reflexivity.
  - lia.
  - lia.
  - lia.
  - vm_compute. reflexivity.
  - vm_compute. discriminate.
  - vm_compute. reflexivity.
  - vm_compute. discriminate.
  - intros _. lia.
  - intros i _. apply rng16_valid.
Defined.

Lemma step_unsupported_acceleration_witness :
  acceleration gen16_acc5 = 5 /\
  step gen16_acc5 1 rng16 = Raise (UnboundLocalError "num_lines_center").
Proof.
  split; [reflexivity|].
  apply (step_unsupported_acceleration gen16_acc5 1 rng16 2 16 16).
  - reflexivity.
  - vm_compute. discriminate.
  - vm_compute. discriminate.
  - lia.
  - lia.
  - lia.
Defined.

(** C6 as stated fails: in the mask of the docstring call the first line
    along the last axis holds both zeros and ones. *)
Lemma step_rows_not_constant :
  step gen16 1 rng16 = Ok [("mask"%string, mask16)] /\
  ~ rows_constant mask16.
Proof.
  split; [exact step_gen16|].
  intros Hrows.
  destruct (Hrows [grid16; grid16] grid16 row16) as [Hones | Hzeros].
  - left. reflexivity.
  - left. reflexivity.
  - left. reflexivity.
  - inversion Hones as [|x l Hx _]. discriminate.
  - rewrite Forall_forall in Hzeros.
    assert (H1 : In 1 row16) by (simpl; tauto).
    specialize (Hzeros 1 H1). discriminate.
Qed.

Lemma step_columns_constant_witness :
  exists C H W,
    unpack_img_size (img_size gen16) = Ok (C, H, W) /\
    has_shape4 mask16 1 C H W /\ columns_constant W mask16.
Proof.
  apply (step_columns_constant gen16 1 rng16 mask16).
  vm_compute. reflexivity.
Defined.


Lemma step_bad_img_size_witness :
  length (img_size gen_rank1) = 1%nat /\
  step gen_rank1 1 rng16 =
    Raise (ValueError "img_size must be (C, H, W) or (H, W)").
Proof.
  split; [reflexivity|].
  apply (step_bad_img_size gen_rank1 1 rng16).
  - vm_compute. discriminate.
  - vm_compute. discriminate.
Defined.

Lemma center_band_contiguous_witness :
  densities 4 16 =
    Ok {| num_lines_center := Some 1; num_lines_side := Some 2 |} /\
  (In 9 (center_line_indices 16 1) <-> 8 <= 9 <= 9).
Proof.
  split; [vm_compute; reflexivity|].
  apply (center_band_contiguous 4 16 16 1 2).
  - lia.
  - vm_compute. reflexivity.
  - vm_compute. discriminate.
Defined.

(** With H = 32 and W = 16 the central indices 16 and 17 leave the last
    axis. *)
Lemma step_gen32x16 : step gen32x16 1 rng16 = Raise IndexError.
Proof. vm_compute. reflexivity. Qed.

End GeneratorExamples.

(* ================================================================== *)
(** * Further properties of Haze *)
(* ================================================================== *)

Section HazeFurther.

Import Haze.
Local Open Scope R_scope.

Variable self : Haze.



(** X7. On an observation that does not have exactly four axes,
    [A_adjoint] raises the [ValueError] of the failed unpacking. *)
Theorem Haze_A_adjoint_bad_rank (y : tensor) :
  length (shape y) <> 4%nat ->
  exists msg, A_adjoint self y = Raise (ValueError msg).
Proof.
  intros Hlen. unfold A_adjoint.
  destruct (shape y) as [|b [|c [|h [|w [|v s]]]]]; simpl in Hlen;
    try (eexists; reflexivity).
  contradiction.
Qed.

End HazeFurther.

(* ================================================================== *)
(** * The mask in closed form *)
(* ================================================================== *)

Section MaskClosedForm.

Import Float64 Torch Numpy AccelerationMaskGenerator.
Local Open Scope Z_scope.

Lemma combine_map_range {B : Type} (f : Z -> B) (l : list Z) :
  combine l (map f l) = map (fun w => (w, f w)) l.
Proof. induction l as [|a l IH]; simpl; [reflexivity | now rewrite IH]. Qed.

Lemma length_line W indices : length (line W indices) = Z.to_nat W.
Proof. unfold line. now rewrite length_map, length_range. Qed.

Lemma line_nil W : line W [] = repeat 0 (Z.to_nat W).
Proof.
  unfold line, range. simpl. generalize 0%nat as s.
  induction (Z.to_nat W) as [|n IH]; intros s; simpl; [reflexivity|].
  now rewrite IH.
Qed.

Lemma wrapped_columns size idx cols :
  Forall2 (fun j c => - size <= j < size /\ c = wrap size j) idx cols ->
  cols = map (wrap size) idx.
Proof.
  induction 1 as [|j c idx cols [_ ->] _ IH]; simpl; [reflexivity|].
  now rewrite IH.
Qed.

(** Setting positions of a line to 1 adds them to its positions. *)
Lemma assign_row_line W idx0 idx row' :
  0 <= W ->
  assign_row idx 1 (line W idx0) = Ok row' -> row' = line W (idx0 ++ idx).
Proof.
  intros HW Ha. apply assign_row_ok in Ha. destruct Ha as (cols & Hc & ->).
  rewrite length_line, Z2Nat.id in Hc by exact HW.
  apply wrapped_columns in Hc. subst cols.
  rewrite length_line. unfold line at 1.
  rewrite combine_map_range, map_map. unfold line.
  apply map_ext. intros w. unfold assigned.
  rewrite map_app, existsb_app.
  destruct (existsb (Z.eqb w) (map (wrap W) idx));
    destruct (existsb (Z.eqb w) (map (wrap W) idx0)); reflexivity.
Qed.

Lemma Forall2_repeat_l {A B : Type} (R : A -> B -> Prop) a c n l' :
  (forall b, R a b -> b = c) ->
  Forall2 R (repeat a n) l' -> l' = repeat c n.
Proof.
  intros Hfun. revert l'. induction n as [|n IH]; intros l' H2; simpl in *.
  - now inversion H2.
  - inversion H2 as [|a0 b0 l0 l1 Hab Hrest]; subst.
    rewrite (Hfun b0 Hab). f_equal. now apply IH.
Qed.

Lemma assign_lines_repeat W idx0 idx n m' :
  0 <= W ->
  assign_lines idx 1 (repeat (line W idx0) n) = Ok m' ->
  m' = repeat (line W (idx0 ++ idx)) n.
Proof.
  intros HW Ha. apply assign_lines_ok in Ha.
  apply (Forall2_repeat_l _ _ _ _ _ (fun b => assign_row_line W idx0 idx b HW) Ha).
Qed.

Lemma assign_all_repeat W idx0 idx n k mask' :
  0 <= W ->
  assign_all idx 1 (repeat (repeat (line W idx0) n) k) = Ok mask' ->
  mask' = repeat (repeat (line W (idx0 ++ idx)) n) k.
Proof.
  intros HW Ha. apply mapM_ok in Ha.
  apply (Forall2_repeat_l _ _ _ _ _
           (fun b => assign_lines_repeat W idx0 idx n b HW) Ha).
Qed.

Lemma firstn_app_exact {A : Type} (l1 l2 : list A) :
  firstn (length l1) (l1 ++ l2) = l1.
Proof.
  rewrite firstn_app, firstn_all, Nat.sub_diag. simpl. apply app_nil_r.
Qed.

Lemma skipn_app_succ {A : Type} (l1 l2 : list A) (x : A) :
  skipn (S (length l1)) (l1 ++ x :: l2) = l2.
Proof.
  rewrite skipn_app, skipn_all2 by lia.
  replace (S (length l1) - length l1)%nat with 1%nat by lia. reflexivity.
Qed.

(** The loop of [step] rewrites batch element [i] with the draw [rng i],
    and nothing else. *)
Lemma random_lines_closed H W nc ns rng center Hn n :
  0 <= W ->
  forall done mask',
    random_lines H {| num_lines_center := nc; num_lines_side := ns |} rng
      (seq (length done) n)
      (done ++ repeat (repeat (line W center) Hn) n) = Ok mask' ->
    mask' = done ++ map (fun b => repeat (line W (center ++ rng b)) Hn)
                        (seq (length done) n).
Proof.
  intros HW. induction n as [|n IH]; intros done mask'; simpl.
  - intros Hm. injection Hm as <-. reflexivity.
  - destruct (local _ ns) as [k|]; [|discriminate]. cbn [bind].
    destruct (random_choice H (k / 2) (rng (length done))) as [ri|] eqn:Hrc;
      [|discriminate]. cbn [bind].
    apply random_choice_ok in Hrc. destruct Hrc as [-> _].
    unfold assign_at.
    rewrite nth_error_app2, Nat.sub_diag by lia. cbn [nth_error].
    destruct (assign_lines _ 1 (repeat (line W center) Hn)) as [m'|] eqn:Hm';
      [|discriminate]. cbn [bind].
    apply (assign_lines_repeat W center _ Hn m' HW) in Hm'. subst m'.
    rewrite firstn_app_exact, skipn_app_succ.
    intros Hr.
    specialize (IH (done ++ [repeat (line W (center ++ rng (length done))) Hn])
                   mask').
    rewrite length_app, Nat.add_1_r in IH. simpl in IH.
    rewrite <- app_assoc in IH. simpl in IH.
    rewrite (IH Hr), <- app_assoc. reflexivity.
Qed.

(** A successful call returns this mask. *)
Lemma step_with_closed_form linspace self batch_size rng t :
  step_with linspace self batch_size rng = Ok [("mask"%string, t)] ->
  exists C H W nc ns,
    unpack_img_size (img_size self) = Ok (C, H, W) /\
    densities (acceleration self) W =
      Ok {| num_lines_center := Some nc; num_lines_side := Some ns |} /\
    0 <= W /\ 0 <= H /\ 0 < C /\ 0 <= batch_size /\
    t = map (fun b =>
               repeat (repeat (line W (linspace (H / 2 - nc / 2)
                                                (H / 2 + nc / 2 + 1) 50%nat
                                         ++ rng b))
                              (Z.to_nat H))
                      (Z.to_nat C))
            (seq 0 (Z.to_nat batch_size)).
Proof.
  unfold step_with. intros Hs.
  destruct (unpack_img_size (img_size self)) as [[[C H] W]|] eqn:Hu;
    [|discriminate]. cbn [bind] in Hs.
  destruct (densities (acceleration self) W) as [l|] eqn:Hd; [|discriminate].
  cbn [bind] in Hs.
  destruct (torch_zeros batch_size H W) as [mask0|] eqn:Hz; [|discriminate].
  cbn [bind] in Hs.
  destruct (num_lines_center l) as [nc|] eqn:Hnc; [|discriminate].
  cbn [bind local] in Hs.
  destruct (assign_all _ 1 mask0) as [mask1|] eqn:Ha;
    [|discriminate]. cbn [bind] in Hs.
  destruct (random_lines H l rng _ mask1) as [mask2|] eqn:Hr; [|discriminate].
  cbn [bind] in Hs.
  destruct (cat_channels mask2 C) as [t'|] eqn:Hc; [|discriminate].
  cbn [bind] in Hs. injection Hs as ->.
  pose proof (densities_bound _ _ _ nc Hd Hnc) as Hacc.
  pose proof (torch_zeros_ok _ _ _ _ Hz) as (HB & HH & HW & _).
  destruct (densities_ok _ _ _ Hacc HW Hd) as (nc' & ns & -> & _ & _).
  simpl in Hnc. injection Hnc as ->.
  apply cat_channels_ok in Hc. destruct Hc as [HC ->].
  exists C, H, W, nc, ns.
  repeat (split; [assumption || reflexivity|]).
  f_equal.
  unfold torch_zeros in Hz.
  destruct ((batch_size <? 0) || (H <? 0) || (W <? 0)); [discriminate|].
  injection Hz as <-. rewrite <- line_nil in Ha.
  apply (assign_all_repeat W [] _ _ _ _ HW) in Ha. simpl in Ha. subst mask1.
  apply (random_lines_closed H W (Some nc) (Some ns) rng _ _ _ HW [] mask2) in Hr.
  simpl in Hr. subst mask2. rewrite map_map. reflexivity.
Qed.

Lemma step_closed_form self batch_size rng t :
  step self batch_size rng = Ok [("mask"%string, t)] ->
  exists C H W nc ns,
    unpack_img_size (img_size self) = Ok (C, H, W) /\
    densities (acceleration self) W =
      Ok {| num_lines_center := Some nc; num_lines_side := Some ns |} /\
    0 <= W /\ 0 <= H /\ 0 < C /\ 0 <= batch_size /\
    t = map (fun b =>
               repeat (repeat (line W (center_line_indices H nc ++ rng b))
                              (Z.to_nat H))
                      (Z.to_nat C))
            (seq 0 (Z.to_nat batch_size)).
Proof. exact (step_with_closed_form torch_linspace self batch_size rng t). Qed.

(** X8. Whatever values [torch.linspace] returns, a call of [step] that
    returns gives, for batch element [b], [C] identical channels of [H]
    identical lines; the line holds 1 exactly at the 50 indices of
    [linspace] and at the indices drawn for [b] (negative indices counted
    from the end of the axis), and 0 elsewhere. *)
Theorem step_mask_closed_form linspace self batch_size rng t :
  step_with linspace self batch_size rng = Ok [("mask"%string, t)] ->
  exists C H W nc ns,
    unpack_img_size (img_size self) = Ok (C, H, W) /\
    densities (acceleration self) W =
      Ok {| num_lines_center := Some nc; num_lines_side := Some ns |} /\
    t = map (fun b =>
               repeat (repeat (line W (linspace (H / 2 - nc / 2)
                                                (H / 2 + nc / 2 + 1) 50%nat
                                         ++ rng b))
                              (Z.to_nat H))
                      (Z.to_nat C))
            (seq 0 (Z.to_nat batch_size)).
Proof.
  intros Hs.
  destruct (step_with_closed_form _ _ _ _ _ Hs)
    as (C & H & W & nc & ns & Hu & Hd & _ & _ & _ & _ & Ht).
  exists C, H, W, nc, ns. split; [exact Hu|]. split; [exact Hd | exact Ht].
Qed.

(** X9. A batch element depends on its own draw only: two calls on the
    same generator whose random sources agree for element [b] return the
    same element [b], whatever is drawn for the others and whatever the
    two batch sizes are. *)
Theorem step_batch_elements_independent self n1 n2 rng1 rng2 t1 t2 b :
  step self n1 rng1 = Ok [("mask"%string, t1)] ->
  step self n2 rng2 = Ok [("mask"%string, t2)] ->
  Z.of_nat b < n1 -> Z.of_nat b < n2 ->
  rng1 b = rng2 b ->
  nth_error t1 b = nth_error t2 b /\ nth_error t1 b <> None.
Proof.
  intros Hs1 Hs2 Hb1 Hb2 Hrng.
  destruct (step_closed_form _ _ _ _ Hs1)
    as (C & H & W & nc & ns & Hu & Hd & _ & _ & _ & _ & ->).
  destruct (step_closed_form _ _ _ _ Hs2)
    as (C' & H' & W' & nc' & ns' & Hu' & Hd' & _ & _ & _ & _ & ->).
  rewrite Hu in Hu'. injection Hu' as <- <- <-.
  rewrite Hd in Hd'. injection Hd' as <- <-.
  rewrite !nth_error_map, !nth_error_seq.
  destruct (Nat.ltb_spec b (Z.to_nat n1)); [|lia].
  destruct (Nat.ltb_spec b (Z.to_nat n2)); [|lia].
  cbn [option_map Nat.add]. rewrite Hrng. split; [reflexivity | discriminate].
Qed.

Lemma nth_error_range n i :
  (i < n)%nat -> nth_error (range n) i = Some (Z.of_nat i).
Proof.
  intros Hi. unfold range. rewrite nth_error_map, nth_error_seq.
  destruct (Nat.ltb_spec i n); [reflexivity | lia].
Qed.

Lemma nth_error_line W indices w :
  0 <= w < W ->
  nth_error (line W indices) (Z.to_nat w) =
  Some (if existsb (Z.eqb w) (map (wrap W) indices) then 1 else 0).
Proof.
  intros Hw. unfold line.
  rewrite nth_error_map, nth_error_range by lia.
  simpl. now rewrite Z2Nat.id by lia.
Qed.

Lemma line_one_iff W indices w :
  0 <= w < W ->
  (nth_error (line W indices) (Z.to_nat w) = Some 1 <->
   exists j, In j indices /\ wrap W j = w).
Proof.
  intros Hw. rewrite (nth_error_line W indices w Hw).
  destruct (existsb (Z.eqb w) (map (wrap W) indices)) eqn:He.
  - split; [intros _ | reflexivity].
    apply existsb_exists in He. destruct He as (c & Hc & Heq).
    apply in_map_iff in Hc. destruct Hc as (j & <- & Hj).
    apply Z.eqb_eq in Heq. exists j. auto.
  - split; [discriminate|]. intros (j & Hj & Hjw). exfalso.
    assert (Ht : existsb (Z.eqb w) (map (wrap W) indices) = true).
    { apply existsb_exists. exists (wrap W j). split.
      - apply in_map. exact Hj.
      - apply Z.eqb_eq. now symmetry. }
    congruence.
Qed.

(** X10. Whatever values [torch.linspace] returns, in a returned mask
    position [w] of the last axis holds 1 in batch element [b] exactly
    when [w] is one of the 50 indices of [linspace] or one of the indices
    drawn for [b]. *)
Theorem step_sampled_lines linspace self batch_size rng t :
  step_with linspace self batch_size rng = Ok [("mask"%string, t)] ->
  exists C H W nc ns,
    unpack_img_size (img_size self) = Ok (C, H, W) /\
    densities (acceleration self) W =
      Ok {| num_lines_center := Some nc; num_lines_side := Some ns |} /\
    forall b chans m row w,
      nth_error t b = Some chans -> In m chans -> In row m -> 0 <= w < W ->
      (nth_error row (Z.to_nat w) = Some 1 <->
       exists j, (In j (linspace (H / 2 - nc / 2) (H / 2 + nc / 2 + 1) 50%nat)
                  \/ In j (rng b))
                 /\ wrap W j = w).
Proof.
  intros Hs.
  destruct (step_with_closed_form _ _ _ _ _ Hs)
    as (C & H & W & nc & ns & Hu & Hd & _ & _ & _ & _ & ->).
  exists C, H, W, nc, ns. split; [exact Hu|]. split; [exact Hd|].
  intros b chans m row w Hb Hm Hrow Hw.
  rewrite nth_error_map in Hb.
  destruct (nth_error (seq 0 (Z.to_nat batch_size)) b) as [b'|] eqn:Hseq;
    [|discriminate].
  rewrite nth_error_seq in Hseq.
  destruct (Nat.ltb_spec b (Z.to_nat batch_size)); [|discriminate].
  injection Hseq as <-. cbn [option_map Nat.add] in Hb. injection Hb as <-.
  apply repeat_spec in Hm. subst m. apply repeat_spec in Hrow. subst row.
  rewrite (line_one_iff W (linspace (H / 2 - nc / 2) (H / 2 + nc / 2 + 1)
                             50%nat ++ rng b) w Hw).
  split; intros (j & Hj & Hjw); exists j; (split; [|exact Hjw]).
  - now apply in_app_or in Hj.
  - now apply in_or_app.
Qed.

Lemma range_NoDup n : NoDup (range n).
Proof.
  unfold range. generalize 0%nat as s.
  induction n as [|n IH]; intros s; simpl; constructor; [|apply IH].
  intros Hin. apply in_map_iff in Hin. destruct Hin as (x & Hx & Hin).
  apply in_seq in Hin. lia.
Qed.

Lemma count_one_position (c : Z) (l : list Z) :
  NoDup l -> (length (filter (fun w => Z.eqb w c) l) <= 1)%nat.
Proof.
  induction 1 as [|a l Hnotin _ IH]; simpl; [lia|].
  destruct (Z.eqb_spec a c) as [->|]; [|exact IH].
  simpl. replace (filter (fun w => w =? c) l) with (@nil Z); [simpl; lia|].
  symmetry. clear IH.
  induction l as [|x l IHl]; simpl; [reflexivity|].
  destruct (Z.eqb_spec x c) as [->|].
  - exfalso. apply Hnotin. now left.
  - apply IHl. intros Hin. apply Hnotin. now right.
Qed.

Lemma count_positions (cols l : list Z) :
  NoDup l ->
  (length (filter (fun w => existsb (Z.eqb w) cols) l) <= length cols)%nat.
Proof.
  intros Hnd. induction cols as [|c cols IH]; simpl.
  - clear Hnd. induction l; simpl; [lia | assumption].
  - pose proof (count_one_position c l Hnd) as H1.
    enough (length (filter (fun w => Z.eqb w c || existsb (Z.eqb w) cols) l)
            <= length (filter (fun w => Z.eqb w c) l)
               + length (filter (fun w => existsb (Z.eqb w) cols) l))%nat by lia.
    clear. induction l as [|x l IHl]; simpl; [lia|].
    destruct (x =? c), (existsb (Z.eqb x) cols); simpl; lia.
Qed.

Lemma count_line W indices :
  (count_occ Z.eq_dec (line W indices) 1%Z <= length indices)%nat.
Proof.
  unfold line.
  rewrite <- (length_map (wrap W) indices).
  pose proof (count_positions (map (wrap W) indices) _
                (range_NoDup (Z.to_nat W))) as Hc.
  enough (count_occ Z.eq_dec
            (map (fun w => if existsb (Z.eqb w) (map (wrap W) indices)
                           then 1 else 0) (range (Z.to_nat W))) 1
          = length (filter (fun w => existsb (Z.eqb w) (map (wrap W) indices))
                      (range (Z.to_nat W)))) by lia.
  generalize (range (Z.to_nat W)) as l.
  induction l as [|x l IHl]; simpl; [reflexivity|].
  destruct (existsb (Z.eqb x) (map (wrap W) indices)); simpl.
  - destruct (Z.eq_dec 1 1); [now rewrite IHl | contradiction].
  - destruct (Z.eq_dec 0 1); [discriminate | exact IHl].
Qed.

(** X11. However wide the image, a line of a returned mask holds at most
    50 ones plus the number of indices drawn for its batch element. *)
Theorem step_line_count self batch_size rng t b chans m row :
  step self batch_size rng = Ok [("mask"%string, t)] ->
  nth_error t b = Some chans -> In m chans -> In row m ->
  (count_occ Z.eq_dec row 1%Z <= 50 + length (rng b))%nat.
Proof.
  intros Hs Hb Hm Hrow.
  destruct (step_closed_form _ _ _ _ Hs)
    as (C & H & W & nc & ns & Hu & Hd & _ & _ & _ & _ & ->).
  rewrite nth_error_map in Hb.
  destruct (nth_error (seq 0 (Z.to_nat batch_size)) b) as [b'|] eqn:Hseq;
    [|discriminate].
  rewrite nth_error_seq in Hseq.
  destruct (Nat.ltb_spec b (Z.to_nat batch_size)); [|discriminate].
  injection Hseq as <-. cbn [option_map Nat.add] in Hb. injection Hb as <-.
  apply repeat_spec in Hm. subst m. apply repeat_spec in Hrow. subst row.
  pose proof (count_line W (center_line_indices H nc ++ rng b)) as Hc.
  rewrite length_app in Hc. unfold center_line_indices in Hc at 2.
  rewrite length_torch_linspace in Hc. exact Hc.
Qed.

End MaskClosedForm.

(* ================================================================== *)
(** * Holes in the central band, and calls that raise *)
(* ================================================================== *)

Section GeneratorEdges.

Import Float64 Torch Numpy AccelerationMaskGenerator.
Local Open Scope Z_scope.

(** X12. With [num_lines_center >= 50] the central band has holes: the 50
    indices cannot reach every integer from
    [H//2 - num_lines_center//2] to [H//2 + num_lines_center//2 + 1]. *)
Theorem center_band_gaps H nc :
  50 <= nc ->
  exists z,
    H / 2 - nc / 2 <= z <= H / 2 + nc / 2 + 1 /\
    ~ In z (center_line_indices H nc).
Proof.
  intros Hnc.
  set (first := H / 2 - nc / 2). set (last := H / 2 + nc / 2 + 1).
  assert (Hspan : first + 50 <= last).
  { subst first last.
    assert (25 <= nc / 2) by (apply Z.div_le_lower_bound; lia). lia. }
  set (band := map (fun i => first + i) (range 51)).
  assert (Hband : forall z, In z band -> first <= z <= last).
  { intros z Hz. apply in_map_iff in Hz. destruct Hz as (i & <- & Hi).
    apply in_range in Hi. lia. }
  assert (Hnd : NoDup band).
  { subst band. clear. set (k := 51%nat). clearbody k.
    pose proof (range_NoDup k) as Hr. induction Hr as [|a l Hnot _ IH]; simpl.
    - constructor.
    - constructor; [|exact IH]. intros Hin. apply in_map_iff in Hin.
      destruct Hin as (x & Hx & Hin). assert (x = a) by lia. subst x.
      contradiction. }
  destruct (Forall_Exists_dec (fun z => In z (center_line_indices H nc))
              (fun z => in_dec Z.eq_dec z (center_line_indices H nc)) band)
    as [Hall | Hex].
  - exfalso. rewrite Forall_forall in Hall.
    pose proof (NoDup_incl_length Hnd Hall) as Hlen.
    unfold band, center_line_indices in Hlen.
    rewrite length_map, length_range, length_torch_linspace in Hlen. lia.
  - apply Exists_exists in Hex. destruct Hex as (z & Hz & Hnot).
    exists z. split; [now apply Hband | exact Hnot].
Qed.

Lemma mapM_raise {A B : Type} (f : A -> result B) (l : list A) (e : exn) :
  (forall a e', f a = Raise e' -> e' = e) ->
  Exists (fun a => exists e', f a = Raise e') l ->
  mapM f l = Raise e.
Proof.
  intros Honly Hex. induction l as [|a l IH]; [inversion Hex|]. simpl.
  destruct (f a) as [b|e'] eqn:Hfa; simpl.
  - rewrite IH; [reflexivity|].
    inversion Hex as [a0 l0 [e' He'] | a0 l0 Hrest]; subst;
      [congruence | exact Hrest].
  - now rewrite (Honly a e' Hfa).
Qed.

Lemma normalize_index_raises size j e :
  normalize_index size j = Raise e -> e = IndexError.
Proof.
  unfold normalize_index.
  destruct ((- size <=? j) && (j <? size)); [discriminate|].
  intros He. now injection He as <-.
Qed.

Lemma assign_row_outside indices row j :
  In j indices -> Z.of_nat (length row) <= j ->
  assign_row indices 1 row = Raise IndexError.
Proof.
  intros Hj Hout. unfold assign_row.
  rewrite (mapM_raise (normalize_index (Z.of_nat (length row))) indices
             IndexError); [reflexivity | |].
  - intros a e'. apply normalize_index_raises.
  - apply Exists_exists. exists j. split; [exact Hj|].
    exists IndexError. unfold normalize_index.
    destruct (Z.ltb_spec j (Z.of_nat (length row))); [lia|].
    now rewrite andb_false_r.
Qed.

Lemma last_center_index H nc :
  In (H / 2 + nc / 2 + 1) (center_line_indices H nc).
Proof.
  unfold center_line_indices. apply (in_torch_linspace _ _ 48).
  exists 49. split; [lia|]. apply (linspace_value_last _ _ 49). lia.
Qed.

(** X13. When the last central index [H//2 + num_lines_center//2 + 1] is
    not below [W], as for images at least twice as high as wide, every
    call with a positive batch size and [H > 0] ends in an [IndexError]. *)
Theorem step_line_outside_axis self batch_size rng C H W nc ns :
  unpack_img_size (img_size self) = Ok (C, H, W) ->
  densities (acceleration self) W =
    Ok {| num_lines_center := Some nc; num_lines_side := Some ns |} ->
  0 < batch_size -> 0 < H -> 0 <= W ->
  W <= H / 2 + nc / 2 + 1 ->
  step self batch_size rng = Raise IndexError.
Proof.
  intros Hu Hd HB HH HW Hout. unfold step, step_with.
  rewrite Hu. cbn [bind]. rewrite Hd. cbn [bind].
  unfold torch_zeros.
  destruct (Z.ltb_spec batch_size 0); [lia|].
  destruct (Z.ltb_spec H 0); [lia|].
  destruct (Z.ltb_spec W 0); [lia|].
  cbn [orb bind num_lines_center local].
  destruct (Z.to_nat batch_size) as [|nb] eqn:Eb; [lia|].
  destruct (Z.to_nat H) as [|nh] eqn:Eh; [lia|].
  cbn [repeat]. unfold assign_all, assign_lines. cbn [mapM].
  rewrite (assign_row_outside _ _ (H / 2 + nc / 2 + 1)).
  - reflexivity.
  - apply last_center_index.
  - rewrite repeat_length. lia.
Qed.

(** X14. When more random lines are asked for than [H] offers
    ([num_lines_side // 2 > H]), a call with a positive batch size whose
    central indices fit the axis ends in the [ValueError] of
    [np.random.choice]. *)
Theorem step_sampling_infeasible self batch_size rng C H W nc ns :
  unpack_img_size (img_size self) = Ok (C, H, W) ->
  densities (acceleration self) W =
    Ok {| num_lines_center := Some nc; num_lines_side := Some ns |} ->
  0 < batch_size -> 0 <= H -> 0 <= W ->
  - W <= H / 2 - nc / 2 -> H / 2 + nc / 2 + 1 < W ->
  H < ns / 2 ->
  exists msg, step self batch_size rng = Raise (ValueError msg).
Proof.
  intros Hu Hd HB HH HW Hlo Hhi Hk.
  pose proof (densities_bound _ _ _ nc Hd eq_refl) as Hacc.
  destruct (densities_ok _ _ _ Hacc HW Hd) as (nc' & ns' & E & Hnc & Hns).
  injection E as <- <-.
  unfold step, step_with. rewrite Hu. cbn [bind]. rewrite Hd. cbn [bind].
  destruct (torch_zeros_total batch_size H W) as [mask0 Hz]; try lia.
  rewrite Hz. cbn [bind num_lines_center local].
  apply torch_zeros_ok in Hz. destruct Hz as (_ & _ & _ & Hok0).
  destruct (assign_all_total _ _ _ _ (center_line_indices H nc) _ Hok0)
    as [mask1 Ha]; [now apply center_line_indices_range|].
  cbv zeta.
  change (torch_linspace (H / 2 - nc / 2) (H / 2 + nc / 2 + 1) 50)
    with (center_line_indices H nc).
  rewrite Ha. cbn [bind].
  destruct (Z.to_nat batch_size) as [|nb] eqn:Eb; [lia|].
  cbn [seq random_lines num_lines_side local bind].
  unfold random_choice.
  destruct (Z.ltb_spec (ns / 2) 0); [lia|].
  destruct (Z.leb_spec H 0), (Z.eqb_spec (ns / 2) 0); try lia;
    cbn [andb negb bind].
  - eexists; reflexivity.
  - destruct (Z.ltb_spec H (ns / 2)); [|lia]. cbn [bind].
    eexists; reflexivity.
Qed.

(** X15. For every width up to 4096, [num_lines_center] is exactly
    [8 * W // 100] for acceleration 4 and [4 * W // 100] for acceleration
    8; [num_lines_side] is [17 * W // 100], respectively
    [85 * W // 1000], or one less, since 0.25 - 0.08 and 0.125 - 0.04 are
    doubles below 0.17 and 0.085. *)
Theorem densities_small_widths W :
  0 <= W <= 4096 ->
  exists c4 s4 c8 s8,
    densities 4 W = Ok {| num_lines_center := Some c4; num_lines_side := Some s4 |} /\
    densities 8 W = Ok {| num_lines_center := Some c8; num_lines_side := Some s8 |} /\
    c4 = 8 * W / 100 /\ c8 = 4 * W / 100 /\
    17 * W / 100 - 1 <= s4 <= 17 * W / 100 /\
    85 * W / 1000 - 1 <= s8 <= 85 * W / 1000.
Proof.
  intros HW.
  set (ok := fun W =>
    match densities 4 W, densities 8 W with
    | Ok {| num_lines_center := Some c4; num_lines_side := Some s4 |},
      Ok {| num_lines_center := Some c8; num_lines_side := Some s8 |} =>
        (c4 =? 8 * W / 100) && (c8 =? 4 * W / 100)
        && (17 * W / 100 - 1 <=? s4) && (s4 <=? 17 * W / 100)
        && (85 * W / 1000 - 1 <=? s8) && (s8 <=? 85 * W / 1000)
    | _, _ => false
    end).
  assert (Hall : forallb ok (range 4097) = true) by (vm_compute; reflexivity).
  rewrite forallb_forall in Hall.
  assert (Hin : In W (range 4097)) by (apply in_range; lia).
  specialize (Hall W Hin). unfold ok in Hall.
  destruct (densities 4 W) as [[[c4|] [s4|]]|]; try discriminate.
  destruct (densities 8 W) as [[[c8|] [s8|]]|]; try discriminate.
  exists c4, s4, c8, s8.
  repeat (apply andb_prop in Hall; destruct Hall as [Hall ?]).
  repeat split; try reflexivity; lia.
Qed.

(** C4 (the code departs from it). The line indices are computed from
    [H] and written on the last axis, of length [W]. Whatever values
    [torch.linspace] returns before its end point, when the end point
    [H//2 + num_lines_center//2 + 1] is not below [W], a call with a
    positive batch size on an image with [H > 0] ends in an [IndexError]:
    no mask of shape (batch_size, C, H, W) is returned. *)
Theorem step_index_error linspace self batch_size rng C H W nc ns :
  unpack_img_size (img_size self) = Ok (C, H, W) ->
  densities (acceleration self) W =
    Ok {| num_lines_center := Some nc; num_lines_side := Some ns |} ->
  0 < batch_size -> 0 < H -> 0 <= W ->
  In (H / 2 + nc / 2 + 1)
     (linspace (H / 2 - nc / 2) (H / 2 + nc / 2 + 1) 50%nat) ->
  W <= H / 2 + nc / 2 + 1 ->
  step_with linspace self batch_size rng = Raise IndexError.
Proof.
  intros Hu Hd HB HH HW Hin Hout. unfold step_with.
  rewrite Hu. cbn [bind]. rewrite Hd. cbn [bind].
  unfold torch_zeros.
  destruct (Z.ltb_spec batch_size 0); [lia|].
  destruct (Z.ltb_spec H 0); [lia|].
  destruct (Z.ltb_spec W 0); [lia|].
  cbn [orb bind num_lines_center local].
  destruct (Z.to_nat batch_size) as [|nb] eqn:Eb; [lia|].
  destruct (Z.to_nat H) as [|nh] eqn:Eh; [lia|].
  cbn [repeat]. unfold assign_all, assign_lines. cbn [mapM].
  rewrite (assign_row_outside _ _ (H / 2 + nc / 2 + 1)).
  - reflexivity.
  - exact Hin.
  - rewrite repeat_length. lia.
Qed.

End GeneratorEdges.

Section FurtherExamples.

Import Haze Float64 Torch Numpy AccelerationMaskGenerator.


Lemma Haze_A_adjoint_bad_rank_witness :
  length (shape flat0) = 2%nat /\
  exists msg, A_adjoint (Haze.init None) flat0 = Raise (ValueError msg).
Proof.
  split; [reflexivity|].
  apply (Haze_A_adjoint_bad_rank (Haze.init None) flat0).
  simpl. discriminate.
Defined.

Local Open Scope Z_scope.

Lemma step_gen16b : step gen16 2 rng16b = Ok [("mask"%string, mask16b)].
Proof. vm_compute. reflexivity. Qed.

Lemma step_mask_closed_form_witness :
  exists C H W nc ns,
    unpack_img_size (img_size gen16) = Ok (C, H, W) /\
    densities (acceleration gen16) W =
      Ok {| num_lines_center := Some nc; num_lines_side := Some ns |} /\
    mask16 = map (fun b =>
                    repeat (repeat (line W (torch_linspace_double
                                              (H / 2 - nc / 2)
                                              (H / 2 + nc / 2 + 1) 50%nat
                                            ++ rng16 b))
                                   (Z.to_nat H))
                           (Z.to_nat C))
                 (seq 0 (Z.to_nat 1)).
Proof.
  apply (step_mask_closed_form torch_linspace_double gen16 1 rng16 mask16).
  vm_compute. reflexivity.
Defined.

Lemma step_batch_elements_independent_witness :
  rng16 0%nat = rng16b 0%nat /\
  nth_error mask16 0 = nth_error mask16b 0 /\ nth_error mask16 0 <> None.
Proof.
  split; [reflexivity|].
  apply (step_batch_elements_independent gen16 1 2 rng16 rng16b
           mask16 mask16b 0 step_gen16 step_gen16b).
  - simpl; lia.
  - simpl; lia.
  - reflexivity.
Defined.

Lemma step_sampled_lines_witness :
  exists C H W nc ns,
    unpack_img_size (img_size gen16) = Ok (C, H, W) /\
    densities (acceleration gen16) W =
      Ok {| num_lines_center := Some nc; num_lines_side := Some ns |} /\
    forall b chans m row w,
      nth_error mask16 b = Some chans -> In m chans -> In row m -> 0 <= w < W ->
      (nth_error row (Z.to_nat w) = Some 1 <->
       exists j, (In j (torch_linspace_double (H / 2 - nc / 2)
                          (H / 2 + nc / 2 + 1) 50%nat)
                  \/ In j (rng16 b))
                 /\ wrap W j = w).
Proof.
  apply (step_sampled_lines torch_linspace_double gen16 1 rng16 mask16).
  vm_compute. reflexivity.
Defined.

Lemma step_line_count_witness :
  (count_occ Z.eq_dec row16 1%Z <= 50 + length (rng16 0%nat))%nat.
Proof.
  apply (step_line_count gen16 1 rng16 mask16 0 [grid16; grid16] grid16 row16
           step_gen16).
  - reflexivity.
  - left. reflexivity.
  - left. reflexivity.
Defined.

Lemma center_band_gaps_witness :
  50 <= 80 /\
  exists z,
    1000 / 2 - 80 / 2 <= z <= 1000 / 2 + 80 / 2 + 1 /\
    ~ In z (center_line_indices 1000 80).
Proof.
  split; [lia|]. apply (center_band_gaps 1000 80). lia.
Defined.

Lemma step_line_outside_axis_witness :
  unpack_img_size (img_size gen32x16) = Ok (2, 32, 16) /\
  step gen32x16 1 rng16 = Raise IndexError.
Proof.
  split; [reflexivity|].
  apply (step_line_outside_axis gen32x16 1 rng16 2 32 16 1 2).
  - reflexivity.
  - vm_compute. reflexivity.
  - lia.
  - lia.
  - lia.
  - vm_compute. discriminate.
Defined.

(** The image of size (32, 16): the central indices are 16 and 17, the
    last axis has the positions 0 to 15. *)
Lemma step_index_error_witness :
  unpack_img_size (img_size gen32x16) = Ok (2, 32, 16) /\
  step_with torch_linspace_double gen32x16 1 rng16 = Raise IndexError.
Proof.
  split; [reflexivity|].
  apply (step_index_error torch_linspace_double gen32x16 1 rng16 2 32 16 1 2).
  - reflexivity.
  - vm_compute. reflexivity.
  - lia.
  - lia.
  - lia.
  - vm_compute. tauto.
  - vm_compute. discriminate.
Defined.

(** A square image fails as well when it is small: on (2, 2) the indices
    are 1 and 2. *)
Example step_gen2x2 :
  step_with torch_linspace_double gen2x2 1 rng16 = Raise IndexError.
Proof. vm_compute. reflexivity. Qed.

Lemma step_sampling_infeasible_witness :
  densities (acceleration gen4x100) 100 =
    Ok {| num_lines_center := Some 8; num_lines_side := Some 17 |} /\
  exists msg, step gen4x100 1 rng16 = Raise (ValueError msg).
Proof.
  split; [vm_compute; reflexivity|].
  apply (step_sampling_infeasible gen4x100 1 rng16 2 4 100 8 17).
  - reflexivity.
  - vm_compute. reflexivity.
  - lia.
  - lia.
  - lia.
  - vm_compute. discriminate.
  - vm_compute. reflexivity.
  - vm_compute. reflexivity.
Defined.

Lemma densities_small_widths_witness :
  exists c4 s4 c8 s8,
    densities 4 300 = Ok {| num_lines_center := Some c4; num_lines_side := Some s4 |} /\
    densities 8 300 = Ok {| num_lines_center := Some c8; num_lines_side := Some s8 |} /\
    c4 = 8 * 300 / 100 /\ c8 = 4 * 300 / 100 /\
    17 * 300 / 100 - 1 <= s4 <= 17 * 300 / 100 /\
    85 * 300 / 1000 - 1 <= s8 <= 85 * 300 / 1000.
Proof. apply (densities_small_widths 300). lia. Defined.

(** At width 300 the rounding shows: 50 side lines, not 51. *)
Example densities_300 :
  densities 4 300 =
    Ok {| num_lines_center := Some 24; num_lines_side := Some 50 |}.
Proof. vm_compute. reflexivity. Qed.

End FurtherExamples.
